(** * Node editing: row projection, row parsing, path-addressed save

    A shallow embedding of the two node editors of the graph view
    ([EditableNodeModal] in [features/modals/NodeModal/EditableNodeModal.tsx]
    and [EditableNodeModalInline] next to [NodeModal]) and of the display
    helpers [normalizeNodeData] and [jsonPathToString].

    JavaScript values are represented by the type [json].  Numbers are the
    integers; the other doubles are not represented.  Strings are sequences
    of 8-bit code units. *)

From Stdlib Require Import String Ascii List ZArith Lia Bool.
From Stdlib Require Import Decimal DecimalFacts DecimalPos DecimalZ DecimalString.
From Stdlib Require Import Sorted.
Import ListNotations.
Open Scope list_scope.
Open Scope string_scope.

Set Warnings "-register-all".

(** ** JavaScript values *)

(** The primitive values of JSON. *)
Inductive prim : Type :=
| PNull
| PBool (b : bool)
| PNum (n : Z)
| PStr (s : string).

(** A parsed JSON value.  The properties of an object are kept in the order
    in which [Object.keys] lists them. *)
Inductive json : Type :=
| JPrim (p : prim)
| JArr (items : list json)
| JObj (props : list (string * json)).

Coercion JPrim : prim >-> json.

(** [NodeRow["type"]]. *)
Inductive RowType : Type :=
| TString | TNumber | TBoolean | TNull | TObject | TArray.

Definition RowType_eqb (a b : RowType) : bool :=
  match a, b with
  | TString, TString | TNumber, TNumber | TBoolean, TBoolean
  | TNull, TNull | TObject, TObject | TArray, TArray => true
  | _, _ => false
  end.

(** A path segment: an object key or an array index. *)
Inductive Segment : Type :=
| SegKey (s : string)
| SegIdx (n : Z).

Definition JSONPath := list Segment.

(** Modelled from the spec: [types/graph] is not among the sources.  A row
    has a key (a string, or [null]), a primitive value and a type; a node
    has a path and its rows.  A node always has its path, so that
    [nodeData.path ?? []] is [path nd]. *)
Record NodeRow : Type := mkRow {
  key : option string;
  value : prim;
  type : RowType
}.

Record NodeData : Type := mkNode {
  path : JSONPath;
  text : list NodeRow
}.

(** ** Conversions of the language *)

(** [Number::toString] on integers: the decimal digits, with a sign.  This
    is the text that the language gives for the integers below [10^21] in
    absolute value; from there on it writes an exponent, which is not
    represented here. *)
Definition Number_toString (n : Z) : string :=
  NilZero.string_of_int (Z.to_int n).

(** [Array.prototype.join] on an array of strings. *)
Definition join (sep : string) (l : list string) : string := String.concat sep l.

(** [ToString] of a primitive, as applied by a template literal. *)
Definition ToString (v : prim) : string :=
  match v with
  | PNull => "null"
  | PBool true => "true"
  | PBool false => "false"
  | PNum n => Number_toString n
  | PStr s => s
  end.

(** [ToBoolean]. *)
Definition truthy (v : json) : bool :=
  match v with
  | JPrim PNull => false
  | JPrim (PBool b) => b
  | JPrim (PNum n) => negb (n =? 0)%Z
  | JPrim (PStr s) => negb (s =? EmptyString)
  | JArr _ | JObj _ => true
  end.

(** [ToBoolean] of a row key: [null] and the empty string are falsy. *)
Definition key_truthy (k : option string) : bool :=
  match k with
  | Some (String _ _) => true
  | _ => false
  end.

(** ** [jsonType] *)

Definition jsonType (val : json) : RowType :=
  match val with
  | JPrim PNull => TNull
  | JArr _ => TArray
  | JPrim (PNum _) => TNumber
  | JPrim (PBool _) => TBoolean
  | JObj _ => TObject
  | JPrim (PStr _) => TString
  end.

Definition is_container (t : RowType) : bool :=
  match t with
  | TObject | TArray => true
  | _ => false
  end.

(** ** Own properties of an object

    [Object.keys], [JSON.stringify] and [for ... in] list the own string keys
    of an ordinary object with the array indices first, in ascending order,
    and the other keys after them, in the order of their creation. *)

Section Props.
Context {A : Type}.

Fixpoint lookup (k : string) (props : list (string * A)) : option A :=
  match props with
  | [] => None
  | (k', v) :: rest => if k =? k' then Some v else lookup k rest
  end.

(** [Object.prototype.hasOwnProperty]. *)
Definition hasOwnProperty (props : list (string * A)) (k : string) : bool :=
  match lookup k props with Some _ => true | None => false end.

Fixpoint update_prop (k : string) (v : A) (props : list (string * A)) :=
  match props with
  | [] => []
  | (k', v') :: rest =>
      if k =? k' then (k', v) :: rest else (k', v') :: update_prop k v rest
  end.

(** The canonical numeric strings below 2^32 - 1. *)
Definition array_index (k : string) : option N :=
  match NilZero.uint_of_string k with
  | Some d =>
      let n := N.of_uint d in
      if (k =? NilZero.string_of_uint (N.to_uint n)) && (n <? 4294967295)%N
      then Some n else None
  | None => None
  end.

Fixpoint insert_index (i : N) (k : string) (v : A) (props : list (string * A)) :=
  match props with
  | [] => [(k, v)]
  | (k', v') :: rest =>
      match array_index k' with
      | Some j =>
          if (i <? j)%N then (k, v) :: props
          else (k', v') :: insert_index i k v rest
      | None => (k, v) :: props
      end
  end.

(** Creation or update of an own data property. *)
Definition define_prop (k : string) (v : A) (props : list (string * A)) :=
  if hasOwnProperty props k then update_prop k v props
  else match array_index k with
       | Some i => insert_index i k v props
       | None => (props ++ [(k, v)])%list
       end.

Definition Object_keys (props : list (string * A)) : list string :=
  map fst props.
End Props.

(** An object created by the literal [{}] and filled by assignments
    [obj[k] = v] of primitives.  Its prototype is [Object.prototype] until an
    assignment of [null] to [__proto__] removes it; while it is there,
    [__proto__] is no own property and assignments to it create none. *)
Record ObjectLiteral : Type := mkObj {
  proto_null : bool;
  own : list (string * prim)
}.

Definition empty_object : ObjectLiteral := mkObj false [].

Definition assign (obj : ObjectLiteral) (k : string) (v : prim) : ObjectLiteral :=
  if (k =? "__proto__") && negb (proto_null obj) then
    match v with
    | PNull => mkObj true (own obj)
    | _ => obj
    end
  else mkObj (proto_null obj) (define_prop k v (own obj)).

(** ** [JSON.stringify] *)

Definition dquote : ascii := "034"%char.
Definition backslash : ascii := "092"%char.
Definition newline : string := String "010"%char EmptyString.

Definition hex_digit (n : nat) : ascii :=
  if (n <? 10)%nat then ascii_of_nat (48 + n) else ascii_of_nat (87 + n).

(** The escape of one code unit inside a JSON string. *)
Definition escape_char (c : ascii) : string :=
  let n := nat_of_ascii c in
  if (n =? 34)%nat then String backslash (String dquote EmptyString)
  else if (n =? 92)%nat then String backslash (String backslash EmptyString)
  else if (n =? 8)%nat then String backslash "b"
  else if (n =? 12)%nat then String backslash "f"
  else if (n =? 10)%nat then String backslash "n"
  else if (n =? 13)%nat then String backslash "r"
  else if (n =? 9)%nat then String backslash "t"
  else if (n <? 32)%nat then
    String backslash
      (String "u" (String "0" (String "0"
        (String (hex_digit (n / 16)) (String (hex_digit (n mod 16)) EmptyString)))))
  else String c EmptyString.

Fixpoint escape (s : string) : string :=
  match s with
  | EmptyString => EmptyString
  | String c rest => escape_char c ++ escape rest
  end.

(** [QuoteJSONString]. *)
Definition quote (s : string) : string :=
  String dquote (escape s ++ String dquote EmptyString).

Definition stringify_prim (p : prim) : string :=
  match p with
  | PStr s => quote s
  | _ => ToString p
  end.

(** [SerializeJSONProperty] with its [gap] and current [indent]. *)
Fixpoint serialize (gap indent : string) (v : json) : string :=
  let stepback := indent in
  let indent := indent ++ gap in
  match v with
  | JPrim p => stringify_prim p
  | JArr [] => "[]"
  | JArr items =>
      let partial := map (serialize gap indent) items in
      if gap =? EmptyString then "[" ++ join "," partial ++ "]"
      else "[" ++ newline ++ indent
               ++ join ("," ++ newline ++ indent) partial
               ++ newline ++ stepback ++ "]"
  | JObj [] => "{}"
  | JObj props =>
      let member (kv : string * json) :=
        quote (fst kv) ++ ":"
          ++ (if gap =? EmptyString then EmptyString else " ")
          ++ serialize gap indent (snd kv) in
      let partial := map member props in
      if gap =? EmptyString then "{" ++ join "," partial ++ "}"
      else "{" ++ newline ++ indent
               ++ join ("," ++ newline ++ indent) partial
               ++ newline ++ stepback ++ "}"
  end.

(** [JSON.stringify(v)]. *)
Definition JSON_stringify (v : json) : string := serialize EmptyString EmptyString v.

(** [JSON.stringify(v, null, 2)]. *)
Definition JSON_stringify_2 (v : json) : string := serialize "  " EmptyString v.

Definition json_of_object (obj : ObjectLiteral) : json :=
  JObj (map (fun kv => (fst kv, JPrim (snd kv))) (own obj)).

(** ** The projector: [getEditableString] and [normalizeNodeData] *)

(** The [forEach] over the rows, shared by the three copies. *)
Definition collect_row (obj : ObjectLiteral) (row : NodeRow) : ObjectLiteral :=
  if negb (RowType_eqb (type row) TArray) && negb (RowType_eqb (type row) TObject) then
    if key_truthy (key row) then
      match key row with
      | Some k => assign obj k (value row)
      | None => obj
      end
    else obj
  else obj.

Definition collect_rows (rows : list NodeRow) : ObjectLiteral :=
  fold_left collect_row rows empty_object.

(** [nodeData.text.length === 1 && !nodeData.text[0].key], with the row. *)
Definition single_keyless (rows : list NodeRow) : option NodeRow :=
  match rows with
  | [row] => if negb (key_truthy (key row)) then Some row else None
  | _ => None
  end.

(** [isPrimitive]: the node has exactly one row, and the key of that row is
    [null] or the empty string. *)
Definition isPrimitiveNode (nd : NodeData) : bool :=
  match single_keyless (text nd) with
  | Some _ => true
  | None => false
  end.

Definition getEditableString (nodeData : option NodeData) : string :=
  match nodeData with
  | None => "{}"
  | Some nd =>
      match single_keyless (text nd) with
      | Some row => ToString (value row)
      | None => JSON_stringify_2 (json_of_object (collect_rows (text nd)))
      end
  end.

(** [normalizeNodeData], called on [nodeData?.text ?? []]. *)
Definition normalizeNodeData (nodeRows : list NodeRow) : string :=
  match nodeRows with
  | [] => "{}"
  | _ =>
      match single_keyless nodeRows with
      | Some row => ToString (value row)
      | None => JSON_stringify_2 (json_of_object (collect_rows nodeRows))
      end
  end.

(** ** The path label: [jsonPathToString] *)

Definition segment_label (seg : Segment) : string :=
  match seg with
  | SegIdx n => Number_toString n
  | SegKey s => String dquote (s ++ String dquote EmptyString)
  end.

Definition jsonPathToString (p : option JSONPath) : string :=
  match p with
  | None => "$"
  | Some [] => "$"
  | Some segs => "$[" ++ join "][" (map segment_label segs) ++ "]"
  end.

(** ** A reference [JSON.parse]

    A recursive-descent parser of the JSON grammar with integer number
    literals.  A number literal with a fraction or an exponent, and a
    [\u] escape above [\u00ff], denote values that are not represented here
    and are reported as errors, where [JSON.parse] accepts them.  An integer
    literal is read exactly; [JSON.parse] reads a double, which is the same
    number on the safe integers, below [2^53] in absolute value, and the
    nearest double beyond.  [fuel] bounds the nesting of calls; two units
    per character of the text are enough. *)

Definition is_ws (c : ascii) : bool :=
  let n := nat_of_ascii c in
  (n =? 32)%nat || (n =? 9)%nat || (n =? 10)%nat || (n =? 13)%nat.

Definition is_digit (c : ascii) : bool :=
  let n := nat_of_ascii c in (48 <=? n)%nat && (n <=? 57)%nat.

Fixpoint skip_ws (s : string) : string :=
  match s with
  | String c r => if is_ws c then skip_ws r else s
  | EmptyString => EmptyString
  end.

Definition hex_value (c : ascii) : option nat :=
  let n := nat_of_ascii c in
  if (48 <=? n)%nat && (n <=? 57)%nat then Some (n - 48)
  else if (97 <=? n)%nat && (n <=? 102)%nat then Some (n - 87)
  else if (65 <=? n)%nat && (n <=? 70)%nat then Some (n - 55)
  else None.

Definition simple_escape (e : ascii) : option ascii :=
  let n := nat_of_ascii e in
  if (n =? 34)%nat then Some dquote
  else if (n =? 92)%nat then Some backslash
  else if (n =? 47)%nat then Some "/"%char
  else if (n =? 98)%nat then Some "008"%char
  else if (n =? 102)%nat then Some "012"%char
  else if (n =? 110)%nat then Some "010"%char
  else if (n =? 114)%nat then Some "013"%char
  else if (n =? 116)%nat then Some "009"%char
  else None.

Definition unicode_escape (a b c d : ascii) : option ascii :=
  match hex_value a, hex_value b, hex_value c, hex_value d with
  | Some 0, Some 0, Some x, Some y => Some (ascii_of_nat (16 * x + y))
  | _, _, _, _ => None
  end.

Definition prepend (c : ascii) (r : option (string * string)) :=
  match r with
  | Some (s, rest) => Some (String c s, rest)
  | None => None
  end.

(** The characters of a string literal after its opening quote, and the
    text after its closing quote. *)
Fixpoint parse_string_body (s : string) : option (string * string) :=
  match s with
  | EmptyString => None
  | String c r =>
      if Ascii.eqb c dquote then Some (EmptyString, r)
      else if Ascii.eqb c backslash then
        match r with
        | String e r1 =>
            match simple_escape e with
            | Some ch => prepend ch (parse_string_body r1)
            | None =>
                if Ascii.eqb e "u" then
                  match r1 with
                  | String h1 (String h2 (String h3 (String h4 r2))) =>
                      match unicode_escape h1 h2 h3 h4 with
                      | Some ch => prepend ch (parse_string_body r2)
                      | None => None
                      end
                  | _ => None
                  end
                else None
            end
        | EmptyString => None
        end
      else if (nat_of_ascii c <? 32)%nat then None
      else prepend c (parse_string_body r)
  end.

Fixpoint span_digits (s : string) : string * string :=
  match s with
  | String c r =>
      if is_digit c then let (ds, rest) := span_digits r in (String c ds, rest)
      else (EmptyString, s)
  | EmptyString => (EmptyString, EmptyString)
  end.

Definition starts_fraction (s : string) : bool :=
  match s with
  | String c _ => Ascii.eqb c "." || Ascii.eqb c "e" || Ascii.eqb c "E"
  | EmptyString => false
  end.

Definition leading_zero (ds : string) : bool :=
  match ds with
  | String c (String _ _) => Ascii.eqb c "0"
  | _ => false
  end.

Definition parse_number (s : string) : option (Z * string) :=
  let (negative, s1) :=
    match s with
    | String c r => if Ascii.eqb c "-" then (true, r) else (false, s)
    | EmptyString => (false, s)
    end in
  let (ds, rest) := span_digits s1 in
  if leading_zero ds || starts_fraction rest then None
  else match NilZero.uint_of_string ds with
       | Some d => Some (if negative then (- Z.of_uint d)%Z else Z.of_uint d, rest)
       | None => None
       end.

Definition expect (word : string) (v : json) (s : string) : option (json * string) :=
  if String.prefix word s
  then Some (v, String.substring (String.length word) (String.length s - String.length word) s)
  else None.

Fixpoint parse_value (fuel : nat) (s : string) {struct fuel} : option (json * string) :=
  match fuel with
  | O => None
  | S fuel =>
      match skip_ws s with
      | EmptyString => None
      | String c r =>
          if Ascii.eqb c "{" then
            match skip_ws r with
            | String c1 r1 =>
                if Ascii.eqb c1 "}" then Some (JObj [], r1)
                else parse_members fuel [] r
            | EmptyString => None
            end
          else if Ascii.eqb c "[" then
            match skip_ws r with
            | String c1 r1 =>
                if Ascii.eqb c1 "]" then Some (JArr [], r1)
                else parse_elements fuel [] r
            | EmptyString => None
            end
          else if Ascii.eqb c dquote then
            match parse_string_body r with
            | Some (str, rest) => Some (JPrim (PStr str), rest)
            | None => None
            end
          else if Ascii.eqb c "t" then expect "true" (JPrim (PBool true)) (String c r)
          else if Ascii.eqb c "f" then expect "false" (JPrim (PBool false)) (String c r)
          else if Ascii.eqb c "n" then expect "null" (JPrim PNull) (String c r)
          else
            match parse_number (String c r) with
            | Some (n, rest) => Some (JPrim (PNum n), rest)
            | None => None
            end
      end
  end

with parse_elements (fuel : nat) (acc : list json) (s : string) {struct fuel}
  : option (json * string) :=
  match fuel with
  | O => None
  | S fuel =>
      match parse_value fuel s with
      | Some (v, r) =>
          match skip_ws r with
          | String c r1 =>
              if Ascii.eqb c "," then parse_elements fuel (acc ++ [v])%list r1
              else if Ascii.eqb c "]" then Some (JArr (acc ++ [v])%list, r1)
              else None
          | EmptyString => None
          end
      | None => None
      end
  end

with parse_members (fuel : nat) (acc : list (string * json)) (s : string) {struct fuel}
  : option (json * string) :=
  match fuel with
  | O => None
  | S fuel =>
      match skip_ws s with
      | String q r =>
          if Ascii.eqb q dquote then
            match parse_string_body r with
            | Some (k, r1) =>
                match skip_ws r1 with
                | String c r2 =>
                    if Ascii.eqb c ":" then
                      match parse_value fuel r2 with
                      | Some (v, r3) =>
                          match skip_ws r3 with
                          | String c3 r4 =>
                              if Ascii.eqb c3 "," then parse_members fuel (define_prop k v acc) r4
                              else if Ascii.eqb c3 "}" then Some (JObj (define_prop k v acc), r4)
                              else None
                          | EmptyString => None
                          end
                      | None => None
                      end
                    else None
                | EmptyString => None
                end
            | None => None
            end
          else None
      | EmptyString => None
      end
  end.

Definition syntax_error : string := "Unexpected token in JSON".

(** [JSON.parse]: the value, or the message of the [SyntaxError]. *)
Definition JSON_parse (text : string) : json + string :=
  match parse_value (2 * String.length text + 2) text with
  | Some (v, rest) =>
      match skip_ws rest with
      | EmptyString => inl v
      | String _ _ => inr syntax_error
      end
  | None => inr syntax_error
  end.

(** ** The stores and the editor session *)

(** Modelled from the spec: the stores [useJson], [useGraph] and [useFile]
    are not among the sources.  [store_json] is the document text,
    [contents] its mirror, [nodes] the node list built from the document,
    [selectedNode] the selection; [error] and [opened] are the state of the
    editor. *)
Record State : Type := mkState {
  store_json : string;
  contents : string;
  nodes : list NodeData;
  selectedNode : option NodeData;
  error : option string;
  opened : bool
}.

Definition getJson (st : State) : string := store_json st.

Definition setSelectedNode (n : NodeData) (st : State) : State :=
  mkState (store_json st) (contents st) (nodes st) (Some n) (error st) (opened st).

Definition setContents (c : string) (st : State) : State :=
  mkState (store_json st) c (nodes st) (selectedNode st) (error st) (opened st).

Definition setError (message : string) (st : State) : State :=
  mkState (store_json st) (contents st) (nodes st) (selectedNode st) (Some message) (opened st).

Definition onClose (st : State) : State :=
  mkState (store_json st) (contents st) (nodes st) (selectedNode st) (error st) false.

(** ** Pieces of [handleSave] *)

(** [typeof v === "object"]. *)
Definition typeof_object (v : json) : bool :=
  match v with
  | JPrim PNull | JArr _ | JObj _ => true
  | JPrim _ => false
  end.

Definition Array_isArray (v : json) : bool :=
  match v with
  | JArr _ => true
  | _ => false
  end.

Fixpoint indexed {A : Type} (i : nat) (l : list A) : list (string * A) :=
  match l with
  | [] => []
  | x :: rest => (Number_toString (Z.of_nat i), x) :: indexed (S i) rest
  end.

Fixpoint code_units (s : string) : list json :=
  match s with
  | EmptyString => []
  | String c rest => JPrim (PStr (String c EmptyString)) :: code_units rest
  end.

(** The own enumerable properties of [ToObject(v)], in the order of
    [Object.keys]. *)
Definition own_entries (v : json) : list (string * json) :=
  match v with
  | JObj props => props
  | JArr items => indexed 0 items
  | JPrim (PStr s) => indexed 0 (code_units s)
  | JPrim _ => []
  end.

(** [{ key, value: type === "object" || type === "array" ? null : value, type }]:
    the type is one of the two exactly when the value is no primitive. *)
Definition make_row (k : option string) (v : json) : NodeRow :=
  let t := jsonType v in
  mkRow k (match v with JPrim p => p | JArr _ | JObj _ => PNull end) t.

(** [nodeData.text.filter(...).map(r => r.key)]. *)
Definition editableKeys (rows : list NodeRow) : list string :=
  map (fun r => match key r with Some k => k | None => EmptyString end)
      (filter (fun r => negb (RowType_eqb (type r) TArray)
                        && negb (RowType_eqb (type r) TObject)
                        && key_truthy (key r)) rows).

(** [parsed && typeof parsed === "object" && !Array.isArray(parsed) ? parsed : {}]. *)
Definition newObj (parsed : json) : json :=
  if truthy parsed && typeof_object parsed && negb (Array_isArray parsed)
  then parsed else JObj [].

(** [Array.from(new Set(l))]: the first occurrences, in order. *)
Definition Set_add (seen : list string) (k : string) : list string :=
  if existsb (String.eqb k) seen then seen else (seen ++ [k])%list.

Definition Array_from_Set (l : list string) : list string :=
  fold_left Set_add l [].

(** [Array.from(new Set([...editableKeys, ...Object.keys(newObj)]))]. *)
Definition union_keys (rows : list NodeRow) (obj : json) : list string :=
  Array_from_Set (editableKeys rows ++ Object_keys (own_entries obj))%list.

(** A segment as a value: a string or a number. *)
Definition json_of_segment (seg : Segment) : json :=
  match seg with
  | SegKey s => JPrim (PStr s)
  | SegIdx n => JPrim (PNum n)
  end.

(** [JSON.stringify(path)]. *)
Definition stringify_path (p : JSONPath) : string :=
  JSON_stringify (JArr (map json_of_segment p)).

(** [n => JSON.stringify(n.path) === JSON.stringify(path)]. *)
Definition same_path (p : JSONPath) (n : NodeData) : bool :=
  stringify_path (path n) =? stringify_path p.

(** [parsed === null]. *)
Definition is_null (v : json) : bool :=
  match v with
  | JPrim PNull => true
  | _ => false
  end.

(** The rows built at the head of [handleSave] of [EditableNodeModalInline]. *)
Definition parsed_rows (parsed : json) : list NodeRow :=
  if negb (is_null parsed) && typeof_object parsed && negb (Array_isArray parsed)
  then map (fun kv => make_row (Some (fst kv)) (snd kv)) (own_entries parsed)
  else [make_row None parsed].

(** The edits of a field-set save, in the words of the specification: one
    per key, at the path of the node extended by the key, setting the value
    that the edited object has at the key, or deleting when it has none. *)
Definition field_edits (p : JSONPath) (props : list (string * json)) (keys : list string)
  : list (JSONPath * option json) :=
  map (fun k => ((p ++ [SegKey k])%list, lookup k props)) keys.

(** The rows of the [catch] block of [handleSave] of [EditableNodeModal]. *)
Definition fallback_rows (nd : NodeData) (parsed : json) : list NodeRow :=
  if isPrimitiveNode nd then [make_row None parsed]
  else map (fun kv => make_row (Some (fst kv)) (snd kv))
           (own_entries (if truthy parsed then parsed else JObj [])).

Section Controller.

(** [JSON.parse]; [modify] and [applyEdits] of [jsonc-parser], [None]
    standing for a thrown exception, an absent value for [undefined]; the
    graph parser run by [setJson]. *)
Variable JSON_parse : string -> json + string.
Variable Edits : Type.
Variable modify : string -> JSONPath -> option json -> option Edits.
Variable applyEdits : string -> Edits -> option string.
Variable parser : string -> list NodeData.

(** Modelled from the spec: [useJson.setJson] stores the text and rebuilds
    the graph from it. *)
Definition setJson (j : string) (st : State) : State :=
  mkState j (contents st) (parser j) (selectedNode st) (error st) (opened st).

(** One [modify] followed by [applyEdits]. *)
Definition patch_at (currentJson : string) (p : JSONPath) (v : option json)
  : option string :=
  match modify currentJson p v with
  | Some edits => applyEdits currentJson edits
  | None => None
  end.

(** The loop [for (const key of keys)]. *)
Fixpoint patch_keys (p : JSONPath) (obj : json) (keys : list string)
                    (currentJson : string) : option string :=
  match keys with
  | [] => Some currentJson
  | k :: rest =>
      let fullPath := (p ++ [SegKey k])%list in
      let v := lookup k (own_entries obj) in
      match patch_at currentJson fullPath v with
      | Some currentJson => patch_keys p obj rest currentJson
      | None => None
      end
  end.

(** Edits applied one after the other, each to the text that the one before
    it produced. *)
Inductive PatchSteps : string -> list (JSONPath * option json) -> string -> Prop :=
| steps_done (doc : string) : PatchSteps doc [] doc
| steps_next (doc doc1 doc' : string) (p : JSONPath) (v : option json)
             (rest : list (JSONPath * option json)) :
    patch_at doc p v = Some doc1 ->
    PatchSteps doc1 rest doc' ->
    PatchSteps doc ((p, v) :: rest) doc'.

(** The body of the inner [try] up to [setJson]. *)
Definition patch (nd : NodeData) (isPrimitive : bool) (parsed : json)
                 (currentJson : string) : option string :=
  if isPrimitive then patch_at currentJson (path nd) (Some parsed)
  else
    let obj := newObj parsed in
    patch_keys (path nd) obj (union_keys (text nd) obj) currentJson.

(** [nodes.find(...)] and [if (found) setSelectedNode(found)]. *)
Definition reselect (p : JSONPath) (st : State) : State :=
  match find (same_path p) (nodes st) with
  | Some found => setSelectedNode found st
  | None => st
  end.

(** [handleSave] of [EditableNodeModal]. *)
Definition handleSave (nodeData : option NodeData) (editorText : string) (st : State)
  : State :=
  match JSON_parse editorText with
  | inr message => setError message st
  | inl parsed =>
      let isPrimitive :=
        match nodeData with
        | Some nd => isPrimitiveNode nd
        | None => false
        end in
      let st :=
        match nodeData with
        | Some nd =>
            let currentJson := getJson st in
            match patch nd isPrimitive parsed currentJson with
            | Some currentJson => reselect (path nd) (setJson currentJson st)
            | None =>
                let rows :=
                  if isPrimitive then [make_row None parsed]
                  else map (fun kv => make_row (Some (fst kv)) (snd kv))
                           (own_entries (if truthy parsed then parsed else JObj [])) in
                setSelectedNode (mkNode (path nd) rows) st
            end
        | None => st
        end in
      onClose st
  end.

(** [JSON.parse] and the rows of [handleSave] of [EditableNodeModalInline]:
    the rows, or the message of the exception. *)
Definition parse_rows (editorText : string) : list NodeRow + string :=
  match JSON_parse editorText with
  | inl parsed => inl (parsed_rows parsed)
  | inr message => inr message
  end.

(** [handleSave] of [EditableNodeModalInline]. *)
Definition handleSaveInline (nodeData : option NodeData) (editorText : string)
                            (st : State) : State :=
  match JSON_parse editorText with
  | inr message => setError message st
  | inl parsed =>
      let rows := parsed_rows parsed in
      let st :=
        match nodeData with
        | Some nd =>
            let currentJson := getJson st in
            let isPrimitive := isPrimitiveNode nd in
            match patch nd isPrimitive parsed currentJson with
            | Some currentJson =>
                reselect (path nd) (setContents currentJson (setJson currentJson st))
            | None => setSelectedNode (mkNode (path nd) rows) st
            end
        | None => st
        end in
      onClose st
  end.

End Controller.

(** ** Reference collaborators

    A patcher and a graph builder to run the editors on.  The patcher works
    on the parsed document and writes it back compactly; it resolves every
    segment but the last against the document and fails where one does not
    resolve.  The graph builder makes one node per object, with a row per
    property, and one leaf per primitive array element or primitive root. *)

Module Reference.

Record Edit : Type := mkEdit {
  offset : nat;
  length : nat;
  content : string
}.

Fixpoint remove_prop {A : Type} (k : string) (props : list (string * A)) :=
  match props with
  | [] => []
  | (k', v) :: rest => if k =? k' then rest else (k', v) :: remove_prop k rest
  end.

Definition set_prop {A : Type} (k : string) (v : A) (props : list (string * A)) :=
  if hasOwnProperty props k then update_prop k v props else (props ++ [(k, v)])%list.

Fixpoint set_nth {A : Type} (i : nat) (v : A) (l : list A) : option (list A) :=
  match l, i with
  | [], _ => None
  | _ :: rest, O => Some (v :: rest)
  | x :: rest, S i => option_map (cons x) (set_nth i v rest)
  end.

Fixpoint remove_nth {A : Type} (i : nat) (l : list A) : list A :=
  match l, i with
  | [], _ => []
  | _ :: rest, O => rest
  | x :: rest, S i => x :: remove_nth i rest
  end.

Fixpoint set_at (p : JSONPath) (v : option json) (root : json) : option json :=
  match p with
  | [] => v
  | SegKey k :: rest =>
      match root with
      | JObj props =>
          match rest with
          | [] =>
              match v with
              | Some x => Some (JObj (set_prop k x props))
              | None => Some (JObj (remove_prop k props))
              end
          | _ :: _ =>
              match lookup k props with
              | Some child =>
                  option_map (fun c => JObj (update_prop k c props)) (set_at rest v child)
              | None => None
              end
          end
      | _ => None
      end
  | SegIdx i :: rest =>
      match root with
      | JArr items =>
          if (i <? 0)%Z then None else
          match rest with
          | [] =>
              match v with
              | Some x => option_map JArr (set_nth (Z.to_nat i) x items)
              | None => Some (JArr (remove_nth (Z.to_nat i) items))
              end
          | _ :: _ =>
              match nth_error items (Z.to_nat i) with
              | Some child =>
                  match set_at rest v child with
                  | Some c => option_map JArr (set_nth (Z.to_nat i) c items)
                  | None => None
                  end
              | None => None
              end
          end
      | _ => None
      end
  end.

Definition modify (doc : string) (p : JSONPath) (v : option json) : option (list Edit) :=
  match JSON_parse doc with
  | inl root =>
      option_map (fun r => [mkEdit 0 (String.length doc) (JSON_stringify r)])
                 (set_at p v root)
  | inr _ => None
  end.

Definition applyEdit (doc : string) (e : Edit) : string :=
  String.substring 0 (offset e) doc ++ content e
    ++ String.substring (offset e + length e)
                        (String.length doc - (offset e + length e)) doc.

Fixpoint applyEdits (doc : string) (edits : list Edit) : option string :=
  match edits with
  | [] => Some doc
  | e :: rest =>
      match applyEdits doc rest with
      | Some doc' =>
          if (offset e + length e <=? match rest with
                                      | [] => String.length doc
                                      | e' :: _ => offset e'
                                      end)%nat
          then Some (applyEdit doc' e) else None
      | None => None
      end
  end.

Fixpoint build (p : JSONPath) (v : json) : list NodeData :=
  match v with
  | JPrim x => [mkNode p [make_row None v]]
  | JObj props =>
      mkNode p (map (fun kv => make_row (Some (fst kv)) (snd kv)) props)
      :: (fix children (l : list (string * json)) : list NodeData :=
            match l with
            | [] => []
            | (k, c) :: rest =>
                (match c with
                 | JPrim _ => []
                 | _ => build (p ++ [SegKey k]) c
                 end ++ children rest)%list
            end) props
  | JArr items =>
      (fix elements (i : nat) (l : list json) : list NodeData :=
         match l with
         | [] => []
         | c :: rest => (build (p ++ [SegIdx (Z.of_nat i)]) c ++ elements (S i) rest)%list
         end) 0%nat items
  end.

Definition parser (doc : string) : list NodeData :=
  match JSON_parse doc with
  | inl root => build [] root
  | inr _ => []
  end.

(** The patcher with one path made unresolvable. *)
Definition modify_unless (missing : JSONPath) (doc : string) (p : JSONPath)
                         (v : option json) : option (list Edit) :=
  if stringify_path p =? stringify_path missing then None else modify doc p v.

(** The two editors on the reference collaborators. *)
Definition save := handleSave JSON_parse (list Edit) modify applyEdits parser.
Definition saveInline := handleSaveInline JSON_parse (list Edit) modify applyEdits parser.

End Reference.

(** * Vocabulary of the statements *)

(** The double quote, as a string. *)
Definition dq : string := String dquote EmptyString.

(** A segment of a path label between its brackets. *)
Definition bracketed (seg : Segment) : string := "[" ++ segment_label seg ++ "]".

(** The value kept in a row: the parsed value when it is a primitive, and
    [null] for an array or an object. *)
Definition row_value (v : json) : prim :=
  match v with
  | JPrim p => p
  | JArr _ | JObj _ => PNull
  end.

(** A row that the editors let the user edit: its key is a non-empty string
    and its type is neither object nor array. *)
Definition editable_row (k : string) (r : NodeRow) : Prop :=
  key r = Some k /\ k <> EmptyString /\ is_container (type r) = false.

(** Whether the projector takes a row into the object under the key [k]. *)
Definition editable_rowb (k : string) (r : NodeRow) : bool :=
  negb (is_container (type r)) && key_truthy (key r)
  && match key r with Some k' => k =? k' | None => false end.


(** An object that is neither [null] nor an array. *)
Definition is_plain_object (v : json) : bool :=
  match v with
  | JObj _ => true
  | _ => false
  end.


(** The object that the specification describes: every row that has a key
    and whose type is neither object nor array sets its key to its value. *)
Definition spec_mapping (rows : list NodeRow) : list (string * prim) :=
  fold_left (fun m r =>
               match key r with
               | Some k => if is_container (type r) then m else define_prop k (value r) m
               | None => m
               end) rows [].

(** The projector in the words of the specification: a leaf is a node with
    exactly one row, which has no key. *)
Definition project_spec (nodeData : option NodeData) : string :=
  match nodeData with
  | None => "{}"
  | Some nd =>
      match text nd with
      | [r] =>
          match key r with
          | None => ToString (value r)
          | Some _ =>
              JSON_stringify_2 (JObj (map (fun kv => (fst kv, JPrim (snd kv)))
                                          (spec_mapping [r])))
          end
      | rows =>
          JSON_stringify_2 (JObj (map (fun kv => (fst kv, JPrim (snd kv)))
                                      (spec_mapping rows)))
      end
  end.

(** The node of a single primitive value. *)
Definition leaf (p : JSONPath) (v : prim) : NodeData :=
  mkNode p [mkRow None v (jsonType (JPrim v))].

(** The safe integers: every one of them is a double, [Number::toString]
    writes it in digits and [JSON.parse] reads it back from them. *)
Definition safe_integer (n : Z) : Prop := (- 2 ^ 53 < n < 2 ^ 53)%Z.

(** A text that does not go on with a digit. *)
Definition no_digit_start (t : string) : Prop :=
  match t with
  | String c _ => is_digit c = false
  | EmptyString => True
  end.

(** The serialisation of a path, segment by segment, and a reader of one
    segment. *)
Definition encode_segment (seg : Segment) : string :=
  stringify_prim (match seg with SegKey s => PStr s | SegIdx n => PNum n end).

Fixpoint encode_rest (p : JSONPath) : string :=
  match p with
  | [] => "]"
  | seg :: rest => "," ++ encode_segment seg ++ encode_rest rest
  end.

Definition decode_segment (s : string) : option (Segment * string) :=
  match s with
  | String c r =>
      if Ascii.eqb c dquote then
        match parse_string_body r with
        | Some (k, rest) => Some (SegKey k, rest)
        | None => None
        end
      else
        match parse_number s with
        | Some (n, rest) => Some (SegIdx n, rest)
        | None => None
        end
  | EmptyString => None
  end.

(** ** Vocabulary of the further properties *)

(** The order in which an object lists two of its keys: array indices in
    ascending order, before the other keys. *)
Definition key_before (k1 k2 : string) : Prop :=
  match array_index k1, array_index k2 with
  | Some i, Some j => (i < j)%N
  | Some _, None => True
  | None, Some _ => False
  | None, None => k1 <> k2
  end.

(** A list of properties as an object holds it: every key stands before the
    keys after it, and no key occurs twice. *)
Definition canonical {A : Type} (props : list (string * A)) : Prop :=
  StronglySorted key_before (Object_keys props).

(** The properties of the object that the projector prints. *)
Definition editable_object (rows : list NodeRow) : list (string * json) :=
  map (fun kv => (fst kv, JPrim (snd kv))) (own (collect_rows rows)).





(** A string without double quote, and a path whose keys are such strings. *)
Fixpoint quote_free (s : string) : bool :=
  match s with
  | EmptyString => true
  | String c rest => negb (Ascii.eqb c dquote) && quote_free rest
  end.

Definition plain_segment (seg : Segment) : Prop :=
  match seg with
  | SegKey s => quote_free s = true
  | SegIdx _ => True
  end.

(** A reader of one bracketed segment of a path label. *)
Fixpoint until_dquote (s : string) : option (string * string) :=
  match s with
  | EmptyString => None
  | String c rest =>
      if Ascii.eqb c dquote then Some (EmptyString, rest)
      else prepend c (until_dquote rest)
  end.

Definition closing_bracket {A : Type} (r : option (A * string)) : option (A * string) :=
  match r with
  | Some (x, String e rest) => if Ascii.eqb e "]" then Some (x, rest) else None
  | _ => None
  end.

Definition read_bracketed (s : string) : option (Segment * string) :=
  match s with
  | String b (String c r) =>
      if Ascii.eqb b "[" then
        if Ascii.eqb c dquote then
          closing_bracket
            (match until_dquote r with
             | Some (k, rest) => Some (SegKey k, rest)
             | None => None
             end)
        else
          closing_bracket
            (match parse_number (String c r) with
             | Some (n, rest) => Some (SegIdx n, rest)
             | None => None
             end)
      else None
  | _ => None
  end.

(** The first occurrences of the strings of a list, in the order of the
    list. *)
Fixpoint first_occurrences (l : list string) : list string :=
  match l with
  | [] => []
  | x :: rest => x :: filter (fun y => negb (y =? x)) (first_occurrences rest)
  end.

(** The key that a row gives to a field-set save: its key, when that is a
    non-empty string and the type of the row is neither object nor array. *)
Definition editable_key (r : NodeRow) : list string :=
  match key r with
  | Some (String c k) => if is_container (type r) then [] else [String c k]
  | Some EmptyString | None => []
  end.

(** The properties of primitive value of an object, with their values. *)
Definition primitive_props (props : list (string * json)) : list (string * prim) :=
  flat_map (fun kv => match snd kv with
                      | JPrim p => [(fst kv, p)]
                      | JArr _ | JObj _ => []
                      end) props.

(** ** Inputs of the examples *)

Module Examples.

(** A JSON text written with apostrophes for its double quotes. *)
Fixpoint json_text (s : string) : string :=
  match s with
  | EmptyString => EmptyString
  | String c rest =>
      String (if Ascii.eqb c "'" then dquote else c) (json_text rest)
  end.

Definition document : string := json_text "{'user':{'name':'Ann','age':30}}".

Definition user_node : NodeData :=
  mkNode [SegKey "user"]
         [mkRow (Some "name") (PStr "Ann") TString; mkRow (Some "age") (PNum 30) TNumber].

Definition state0 : State :=
  mkState document document (Reference.parser document) None None true.

Definition edited : string := json_text "{'name':'Ann','age':31}".

Definition edited_value : json :=
  JObj [("name", JPrim (PStr "Ann")); ("age", JPrim (PNum 31))].

Definition edited_node : NodeData :=
  mkNode [SegKey "user"]
         [mkRow (Some "name") (PStr "Ann") TString; mkRow (Some "age") (PNum 31) TNumber].

Definition invalid : string := "{name: Ann}".

(** A state whose document has lost the object of the node. *)
Definition drifted : State := mkState "{}" "{}" (Reference.parser "{}") None None true.

(** A node with a row of empty key. *)
Definition empty_key_row : NodeRow := mkRow (Some EmptyString) (PNum 1) TNumber.

Definition empty_key_node : NodeData :=
  mkNode [] [empty_key_row; mkRow (Some "a") (PNum 2) TNumber].

Definition single_empty_key_node : NodeData := mkNode [] [empty_key_row].

(** The documents of these two nodes, open in the editor. *)
Definition empty_key_document : string := json_text "{'':1,'a':2}".

Definition empty_key_state : State :=
  mkState empty_key_document empty_key_document
          (Reference.parser empty_key_document) None None true.

Definition single_empty_key_document : string := json_text "{'':1}".

Definition single_empty_key_state : State :=
  mkState single_empty_key_document single_empty_key_document
          (Reference.parser single_empty_key_document) None None true.

End Examples.

(** * Properties *)

(** ** Strings, lists and properties *)

Lemma append_assoc (a b c : string) : (a ++ b) ++ c = a ++ (b ++ c).
Proof. induction a as [|x a IH]; simpl; [reflexivity | now rewrite IH]. Qed.

Lemma append_empty_r (a : string) : a ++ EmptyString = a.
Proof. induction a as [|x a IH]; simpl; [reflexivity | now rewrite IH]. Qed.

Lemma existsb_eqb_In (k : string) (l : list string) :
  existsb (String.eqb k) l = true <-> In k l.
Proof.
  rewrite existsb_exists. split.
  - intros (x & Hin & Heq). apply String.eqb_eq in Heq. now subst.
  - intros Hin. exists k. split; [assumption | apply String.eqb_refl].
Qed.

Lemma Set_add_spec (seen : list string) (k x : string) :
  In x (Set_add seen k) <-> In x seen \/ x = k.
Proof.
  unfold Set_add. destruct (existsb (String.eqb k) seen) eqn:E.
  - apply existsb_eqb_In in E. split; [now left | intros [H| ->]; assumption].
  - rewrite in_app_iff. simpl. split.
    + intros [H|[H|[]]]; [now left | now right].
    + intros [H|H]; [now left | right; now left].
Qed.

Lemma Set_add_NoDup (seen : list string) (k : string) :
  NoDup seen -> NoDup (Set_add seen k).
Proof.
  intros Hnd. unfold Set_add. destruct (existsb (String.eqb k) seen) eqn:E.
  - assumption.
  - assert (Hnot : ~ In k seen).
    { intros Hin. apply existsb_eqb_In in Hin. congruence. }
    clear E. induction seen as [|y seen IH]; simpl.
    + constructor; [intros [] | constructor].
    + inversion Hnd as [|? ? Hy Hnd']; subst. constructor.
      * rewrite in_app_iff. simpl. intros [H|[H|[]]]; [contradiction|].
        subst. apply Hnot. now left.
      * apply IH; [assumption|]. intros H. apply Hnot. now right.
Qed.

Lemma fold_Set_add_spec (l seen : list string) (x : string) :
  In x (fold_left Set_add l seen) <-> In x seen \/ In x l.
Proof.
  revert seen; induction l as [|k l IH]; intro seen; simpl.
  - tauto.
  - rewrite IH, Set_add_spec. intuition (subst; auto).
Qed.

Lemma fold_Set_add_NoDup (l seen : list string) :
  NoDup seen -> NoDup (fold_left Set_add l seen).
Proof.
  revert seen; induction l as [|k l IH]; intros seen H; simpl.
  - assumption.
  - apply IH. now apply Set_add_NoDup.
Qed.

Lemma find_first {A : Type} (f : A -> bool) (l : list A) :
  match find f l with
  | Some x =>
      exists before after,
        l = (before ++ x :: after)%list /\ f x = true
        /\ forall y, In y before -> f y = false
  | None => forall y, In y l -> f y = false
  end.
Proof.
  induction l as [|a l IH]; simpl.
  - intros y [].
  - destruct (f a) eqn:E.
    + exists [], l. repeat split; [assumption | intros y []].
    + destruct (find f l) as [x|].
      * destruct IH as (before & after & -> & Hx & Hb).
        exists (a :: before), after. repeat split; [assumption|].
        intros y [<-|Hy]; [assumption | now apply Hb].
      * intros y [<-|Hy]; [assumption | now apply IH].
Qed.

Lemma lookup_In {A : Type} (k : string) (props : list (string * A)) :
  In k (Object_keys props) <-> exists v, lookup k props = Some v.
Proof.
  induction props as [|[k' v'] props IH]; simpl.
  - split; [intros [] | intros (v & [=])].
  - destruct (String.eqb_spec k k') as [->|Hne].
    + split; [intros _; now exists v' | intros _; now left].
    + rewrite <- IH. split; [intros [H|H]; [congruence | assumption] | now right].
Qed.

Lemma lookup_None {A : Type} (k : string) (props : list (string * A)) :
  ~ In k (Object_keys props) <-> lookup k props = None.
Proof.
  rewrite lookup_In. destruct (lookup k props) as [v|]; split.
  - intros H. elim H. now exists v.
  - discriminate.
  - reflexivity.
  - intros _ (v & [=]).
Qed.

Lemma lookup_Some_In {A : Type} (k : string) (v : A) (props : list (string * A)) :
  lookup k props = Some v -> In (k, v) props.
Proof.
  induction props as [|[k' v'] props IH]; simpl; [discriminate|].
  destruct (String.eqb_spec k k') as [->|Hne].
  - intros [= ->]. now left.
  - intros H. right. now apply IH.
Qed.

Section PropsFacts.

Context {A : Type}.
Implicit Types (props : list (string * A)) (k : string) (v : A).





Lemma keys_update_prop k v props :
  Object_keys (update_prop k v props) = Object_keys props.
Proof.
  induction props as [|[k0 v0] props IH]; simpl; [reflexivity|].
  destruct (k =? k0); simpl; [reflexivity | now rewrite IH].
Qed.

Lemma keys_insert_index (i : N) k v props x :
  In x (Object_keys (insert_index i k v props)) <-> x = k \/ In x (Object_keys props).
Proof.
  induction props as [|[k0 v0] props IH]; simpl.
  - intuition.
  - destruct (array_index k0) as [j|]; [destruct (i <? j)%N|]; simpl;
      rewrite ?IH; intuition.
Qed.

Lemma NoDup_insert_index (i : N) k v props :
  ~ In k (Object_keys props) -> NoDup (Object_keys props) ->
  NoDup (Object_keys (insert_index i k v props)).
Proof.
  induction props as [|[k0 v0] props IH]; simpl; intros Hk Hnd.
  - constructor; [intros [] | constructor].
  - inversion Hnd as [|? ? H0 Hnd']; subst.
    destruct (array_index k0) as [j|]; [destruct (i <? j)%N|]; simpl.
    + constructor; assumption.
    + constructor.
      * rewrite keys_insert_index. intros [->|H]; [apply Hk; now left | contradiction].
      * apply IH; [intros H; apply Hk; now right | assumption].
    + constructor; assumption.
Qed.

Lemma NoDup_define_prop k v props :
  NoDup (Object_keys props) -> NoDup (Object_keys (define_prop k v props)).
Proof.
  intros Hnd. unfold define_prop, hasOwnProperty.
  destruct (lookup k props) as [x|] eqn:E.
  - now rewrite keys_update_prop.
  - apply lookup_None in E. destruct (array_index k).
    + now apply NoDup_insert_index.
    + unfold Object_keys. rewrite map_app. simpl.
      apply NoDup_app; [assumption | constructor; [intros [] | constructor] |].
      intros a Ha [<-|[]]. contradiction.
Qed.


End PropsFacts.

(** ** The path label *)

Lemma join_brackets (seg : Segment) (segs : list Segment) :
  "[" ++ join "][" (map segment_label (seg :: segs)) ++ "]"
  = String.concat EmptyString (map bracketed (seg :: segs)).
Proof.
  revert seg; induction segs as [|s2 segs IH]; intro seg.
  - reflexivity.
  - specialize (IH s2).
    change (map bracketed (seg :: s2 :: segs))
      with (bracketed seg :: map bracketed (s2 :: segs)).
    change (String.concat EmptyString (bracketed seg :: map bracketed (s2 :: segs)))
      with (bracketed seg ++ EmptyString
              ++ String.concat EmptyString (map bracketed (s2 :: segs))).
    rewrite <- IH.
    change (join "][" (map segment_label (seg :: s2 :: segs)))
      with (segment_label seg ++ "][" ++ join "][" (map segment_label (s2 :: segs))).
    unfold bracketed. simpl.
    rewrite !append_assoc. reflexivity.
Qed.

(** C9.  The label of the empty path (and of an absent path) is the root
    sentinel [$]; the label of a non-empty path is [$] followed by its
    segments in order, each between brackets, a number bare and a string
    between double quotes; so the path customer, 0, id is labelled
    [$["customer"][0]["id"]]. *)
Theorem jsonPathToString_format :
  jsonPathToString (Some []) = "$"
  /\ jsonPathToString None = "$"
  /\ (forall seg segs,
        jsonPathToString (Some (seg :: segs))
        = "$" ++ String.concat EmptyString (map bracketed (seg :: segs)))
  /\ (forall n, bracketed (SegIdx n) = "[" ++ Number_toString n ++ "]")
  /\ (forall s, bracketed (SegKey s) = "[" ++ dq ++ s ++ dq ++ "]")
  /\ jsonPathToString (Some [SegKey "customer"; SegIdx 0; SegKey "id"])
     = "$[" ++ dq ++ "customer" ++ dq ++ "][0][" ++ dq ++ "id" ++ dq ++ "]".
Proof.
  repeat split.
  - intros seg segs.
    change (jsonPathToString (Some (seg :: segs)))
      with ("$" ++ ("[" ++ join "][" (map segment_label (seg :: segs)) ++ "]")).
    now rewrite join_brackets.
  - intros s. unfold bracketed, segment_label, dq. simpl.
    now rewrite !append_assoc.
Qed.

(** ** Row inference *)

Lemma make_row_fields (k : option string) (v : json) :
  key (make_row k v) = k
  /\ type (make_row k v) = jsonType v
  /\ (is_container (type (make_row k v)) = true -> value (make_row k v) = PNull)
  /\ (forall p, v = JPrim p -> value (make_row k v) = p).
Proof.
  repeat split.
  - destruct v as [p| |]; simpl; try reflexivity.
    destruct p; simpl; discriminate.
  - intros p ->. reflexivity.
Qed.

Lemma parsed_rows_object (props : list (string * json)) :
  parsed_rows (JObj props) = map (fun kv => make_row (Some (fst kv)) (snd kv)) props.
Proof. reflexivity. Qed.

Lemma parsed_rows_other (v : json) :
  (forall props, v <> JObj props) -> parsed_rows v = [make_row None v].
Proof.
  intros H. destruct v as [p| |props]; [destruct p | |]; try reflexivity.
  now elim (H props).
Qed.

Lemma keyed_rows_not_keyless (l : list (string * json)) (v : json) :
  map (fun kv => make_row (Some (fst kv)) (snd kv)) l <> [make_row None v].
Proof.
  destruct l as [|kv l]; [discriminate|].
  intros H. injection H as H _. unfold make_row in H. discriminate.
Qed.

(** C7.  When the text parses, the rows are as follows.  For an object:
    one row per own key, in the order of the keys, each with the type
    inferred from the value of the key, with value [null] when that type is
    object or array and the value of the key when it is a primitive.  For
    any other value: exactly one row, without key, with the inferred type,
    with value [null] when that type is array (or object) and the parsed
    value otherwise.  The inference maps [null] to null, an array to array,
    a number to number, a boolean to boolean, an object to object and a
    string to string. *)
Theorem parse_rows_inference
    (JSON_parse : string -> json + string) (editorText : string) (parsed : json) :
  JSON_parse editorText = inl parsed ->
  exists rows,
    parse_rows JSON_parse editorText = inl rows
    /\ match parsed with
       | JObj props =>
           map key rows = map (fun kv => Some (fst kv)) props
           /\ map type rows = map (fun kv => jsonType (snd kv)) props
           /\ map value rows = map (fun kv => row_value (snd kv)) props
       | _ =>
           exists row,
             rows = [row] /\ key row = None /\ type row = jsonType parsed
             /\ value row = row_value parsed
       end
    /\ (forall row, In row rows -> is_container (type row) = true -> value row = PNull)
    /\ jsonType (JPrim PNull) = TNull
    /\ (forall items, jsonType (JArr items) = TArray)
    /\ (forall n, jsonType (JPrim (PNum n)) = TNumber)
    /\ (forall b, jsonType (JPrim (PBool b)) = TBoolean)
    /\ (forall props, jsonType (JObj props) = TObject)
    /\ (forall s, jsonType (JPrim (PStr s)) = TString).
Proof.
  intros Hparse. unfold parse_rows. rewrite Hparse.
  exists (parsed_rows parsed). split; [reflexivity|]. split; [|split].
  - destruct parsed as [p| items |props].
    + exists (make_row None (JPrim p)). destruct p; repeat split.
    + exists (make_row None (JArr items)). repeat split.
    + rewrite parsed_rows_object, !map_map. repeat split.
  - intros row Hin Hc.
    assert (exists k v, row = make_row k v) as (k & v & ->).
    { destruct parsed as [p| items |props].
      - destruct p; simpl in Hin; destruct Hin as [<-|[]]; eauto.
      - simpl in Hin; destruct Hin as [<-|[]]; eauto.
      - rewrite parsed_rows_object in Hin. apply in_map_iff in Hin.
        destruct Hin as (kv & <- & _). eauto. }
    destruct (make_row_fields k v) as (_ & _ & Hnull & _). now apply Hnull.
  - repeat split.
Qed.

(** ** Decoding what [JSON.stringify] and [Number::toString] write *)

Local Abbreviation su := NilEmpty.string_of_uint.

Lemma span_digits_stop (t : string) :
  no_digit_start t -> span_digits t = (EmptyString, t).
Proof. destruct t as [|c t]; simpl; [reflexivity | now intros ->]. Qed.

Lemma span_digits_su (d : uint) (t : string) :
  no_digit_start t -> span_digits (su d ++ t) = (su d, t).
Proof.
  intros Ht. induction d; simpl; rewrite ?IHd; try reflexivity.
  now apply span_digits_stop.
Qed.

Lemma to_uint_unorm (p : positive) : unorm (Pos.to_uint p) = Pos.to_uint p.
Proof.
  rewrite <- (DecimalPos.Unsigned.to_of (Pos.to_uint p)).
  now rewrite DecimalPos.Unsigned.of_to.
Qed.

Lemma to_uint_no_leading_zero (p : positive) (d : uint) : Pos.to_uint p <> D0 d.
Proof.
  intros H. pose proof (to_uint_unorm p) as Hn. rewrite H in Hn.
  rewrite unorm_D0 in Hn.
  assert (Hd : d = Nil \/ d <> Nil) by (destruct d; [now left | right; discriminate ..]).
  destruct Hd as [->|Hd].
  - now apply (DecimalPos.Unsigned.to_uint_nonzero p).
  - pose proof (nb_digits_unorm d Hd) as Hle. rewrite Hn in Hle. simpl in Hle. lia.
Qed.

Lemma leading_zero_su (d : uint) :
  (forall d', d <> D0 d') -> leading_zero (su d) = false.
Proof.
  intros H. destruct d; simpl; try reflexivity;
    try (destruct (su d); reflexivity).
  now elim (H d).
Qed.

Lemma su_head (d : uint) :
  d <> Nil -> exists c r, su d = String c r /\ is_digit c = true.
Proof. destruct d; intros H; try (now elim H); simpl; eauto. Qed.

Lemma of_uint_to_uint (p : positive) : Z.of_uint (Pos.to_uint p) = Z.pos p.
Proof. unfold Z.of_uint. now rewrite DecimalPos.Unsigned.of_to. Qed.

Lemma parse_digits (p : positive) (t : string) :
  no_digit_start t -> starts_fraction t = false ->
  span_digits (su (Pos.to_uint p) ++ t) = (su (Pos.to_uint p), t)
  /\ leading_zero (su (Pos.to_uint p)) = false
  /\ NilZero.uint_of_string (su (Pos.to_uint p)) = Some (Pos.to_uint p).
Proof.
  intros Ht Hf. split; [now apply span_digits_su|]. split.
  - apply leading_zero_su. intros d'. apply to_uint_no_leading_zero.
  - pose proof (NilZero.usu (Pos.to_uint p) (DecimalPos.Unsigned.to_uint_nonnil p)) as H.
    unfold NilZero.string_of_uint in H.
    destruct (Pos.to_uint p) eqn:E; try exact H.
    now elim (DecimalPos.Unsigned.to_uint_nonnil p).
Qed.

Lemma Number_toString_pos (p : positive) :
  Number_toString (Z.pos p) = su (Pos.to_uint p).
Proof.
  unfold Number_toString. simpl. unfold NilZero.string_of_uint.
  destruct (Pos.to_uint p) eqn:E; try reflexivity.
  now elim (DecimalPos.Unsigned.to_uint_nonnil p).
Qed.

Lemma Number_toString_neg (p : positive) :
  Number_toString (Z.neg p) = String "-" (su (Pos.to_uint p)).
Proof.
  unfold Number_toString. simpl. unfold NilZero.string_of_uint.
  destruct (Pos.to_uint p) eqn:E; try reflexivity.
  now elim (DecimalPos.Unsigned.to_uint_nonnil p).
Qed.

Lemma parse_number_unsigned (s : string) :
  match s with String c _ => Ascii.eqb c "-" = false | EmptyString => True end ->
  parse_number s
  = let (ds, rest) := span_digits s in
    if leading_zero ds || starts_fraction rest then None
    else match NilZero.uint_of_string ds with
         | Some d => Some (Z.of_uint d, rest)
         | None => None
         end.
Proof.
  unfold parse_number. destruct s as [|c r]; [reflexivity|].
  intros ->. reflexivity.
Qed.

Lemma digit_is_no_minus (c : ascii) : is_digit c = true -> Ascii.eqb c "-" = false.
Proof. destruct c as [[] [] [] [] [] [] [] []]; try reflexivity; discriminate. Qed.

(** The number lexer reads back what [Number::toString] wrote, up to the
    text that follows. *)
Lemma parse_number_toString (n : Z) (t : string) :
  no_digit_start t -> starts_fraction t = false ->
  parse_number (Number_toString n ++ t) = Some (n, t).
Proof.
  intros Ht Hf. destruct n as [|p|p].
  - change (Number_toString 0) with "0". unfold parse_number. simpl.
    rewrite (span_digits_stop t Ht), Hf. reflexivity.
  - rewrite Number_toString_pos.
    destruct (parse_digits p t Ht Hf) as (Hspan & Hlz & Hu).
    rewrite parse_number_unsigned.
    + rewrite Hspan, Hlz, Hf, Hu. simpl. now rewrite of_uint_to_uint.
    + destruct (su_head (Pos.to_uint p) (DecimalPos.Unsigned.to_uint_nonnil p))
        as (c & r & -> & Hc).
      simpl. now apply digit_is_no_minus.
  - rewrite Number_toString_neg.
    destruct (parse_digits p t Ht Hf) as (Hspan & Hlz & Hu).
    unfold parse_number. simpl.
    rewrite Hspan, Hlz, Hf, Hu. simpl. now rewrite of_uint_to_uint.
Qed.

Lemma parse_string_body_escape_char (c : ascii) (rest : string) :
  parse_string_body (escape_char c ++ rest) = prepend c (parse_string_body rest).
Proof. destruct c as [[] [] [] [] [] [] [] []]; reflexivity. Qed.

(** The string lexer reads back what [quote] wrote. *)
Lemma parse_string_body_escape (s t : string) :
  parse_string_body (escape s ++ String dquote t) = Some (s, t).
Proof.
  induction s as [|c s IH]; simpl.
  - reflexivity.
  - rewrite append_assoc, parse_string_body_escape_char, IH. reflexivity.
Qed.

(** ** Paths are compared by their serialisation *)

Lemma Number_toString_head (n : Z) :
  exists c r, Number_toString n = String c r /\ Ascii.eqb c dquote = false.
Proof.
  destruct n as [|p|p].
  - exists "0"%char, EmptyString. now split.
  - rewrite Number_toString_pos.
    destruct (su_head (Pos.to_uint p) (DecimalPos.Unsigned.to_uint_nonnil p))
      as (c & r & -> & Hc).
    exists c, r. split; [reflexivity|].
    destruct c as [[] [] [] [] [] [] [] []]; try reflexivity; discriminate.
  - rewrite Number_toString_neg. eexists _, _. now split.
Qed.

Lemma encode_rest_start (p : JSONPath) :
  no_digit_start (encode_rest p) /\ starts_fraction (encode_rest p) = false.
Proof. destruct p; now split. Qed.

Lemma decode_encode (seg : Segment) (p : JSONPath) :
  decode_segment (encode_segment seg ++ encode_rest p) = Some (seg, encode_rest p).
Proof.
  destruct seg as [s|n]; unfold encode_segment, stringify_prim.
  - unfold quote. simpl. rewrite append_assoc. simpl.
    now rewrite parse_string_body_escape.
  - change (ToString (PNum n)) with (Number_toString n).
    destruct (encode_rest_start p) as [Hd Hf].
    pose proof (parse_number_toString n (encode_rest p) Hd Hf) as Hp.
    destruct (Number_toString_head n) as (c & r & Hs & Hc).
    rewrite Hs in *. simpl. rewrite Hc. simpl in Hp. now rewrite Hp.
Qed.

Lemma encode_rest_inj (p q : JSONPath) : encode_rest p = encode_rest q -> p = q.
Proof.
  revert q; induction p as [|x p IH]; intros [|y q] H; simpl in H;
    try reflexivity; try discriminate.
  injection H as H.
  pose proof (decode_encode x p) as Hx. rewrite H, decode_encode in Hx.
  injection Hx as Hxy Hrest. subst y. f_equal. apply IH. now symmetry.
Qed.

Lemma join_encode (seg : Segment) (p : JSONPath) :
  join "," (map (serialize EmptyString EmptyString) (map json_of_segment (seg :: p))) ++ "]"
  = encode_segment seg ++ encode_rest p.
Proof.
  revert seg; induction p as [|y p IH]; intro seg.
  - destruct seg; reflexivity.
  - specialize (IH y).
    change (join "," (map (serialize EmptyString EmptyString)
                          (map json_of_segment (seg :: y :: p))))
      with (serialize EmptyString EmptyString (json_of_segment seg) ++ ","
            ++ join "," (map (serialize EmptyString EmptyString)
                             (map json_of_segment (y :: p)))).
    rewrite !append_assoc, IH. destruct seg; reflexivity.
Qed.

Lemma stringify_path_cons (seg : Segment) (p : JSONPath) :
  stringify_path (seg :: p) = "[" ++ encode_segment seg ++ encode_rest p.
Proof.
  rewrite <- join_encode. reflexivity.
Qed.

(** Two paths have the same serialisation only if they are equal. *)
Lemma stringify_path_inj (p q : JSONPath) :
  stringify_path p = stringify_path q -> p = q.
Proof.
  destruct p as [|x p], q as [|y q]; try reflexivity.
  - rewrite stringify_path_cons. intros H. injection H as H.
    pose proof (decode_encode y q) as Hd. rewrite <- H in Hd. discriminate.
  - rewrite stringify_path_cons. intros H. injection H as H.
    pose proof (decode_encode x p) as Hd. rewrite H in Hd. discriminate.
  - rewrite !stringify_path_cons. intros H. injection H as H.
    pose proof (decode_encode x p) as Hx. rewrite H, decode_encode in Hx.
    injection Hx as Hxy Hrest. subst y. f_equal. apply encode_rest_inj. now symmetry.
Qed.

Lemma same_path_spec (p : JSONPath) (n : NodeData) :
  same_path p n = true <-> path n = p.
Proof.
  unfold same_path. rewrite String.eqb_eq. split.
  - apply stringify_path_inj.
  - now intros ->.
Qed.

(** ** The projector *)

Lemma key_truthy_spec (k : option string) :
  key_truthy k = true <-> exists s, k = Some s /\ s <> EmptyString.
Proof.
  destruct k as [[|c s]|]; simpl; split; try discriminate.
  - intros (s & [= <-] & H). now elim H.
  - intros _. eexists; split; [reflexivity | discriminate].
  - reflexivity.
  - intros (s & [=] & _).
Qed.

Lemma not_container_spec (t : RowType) :
  negb (RowType_eqb t TArray) && negb (RowType_eqb t TObject) = true
  <-> is_container t = false.
Proof. destruct t; simpl; split; congruence. Qed.


Lemma collect_row_cases (obj : ObjectLiteral) (r : NodeRow) :
  (exists k, editable_row k r /\ collect_row obj r = assign obj k (value r))
  \/ ((forall k, editable_rowb k r = false) /\ collect_row obj r = obj).
Proof.
  unfold collect_row, editable_rowb.
  destruct (negb (RowType_eqb (type r) TArray) && negb (RowType_eqb (type r) TObject))
    eqn:Ht.
  - apply not_container_spec in Ht. rewrite Ht. simpl.
    destruct (key r) as [[|c s]|] eqn:Hk; simpl.
    + right. now split.
    + left. exists (String c s). unfold editable_row. rewrite Hk.
      repeat split; [discriminate | assumption].
    + right. now split.
  - right. split; [|reflexivity]. intros k.
    assert (is_container (type r) = true) as ->; [|reflexivity].
    destruct (type r); simpl in *; congruence.
Qed.



Lemma NoDup_assign (obj : ObjectLiteral) (k : string) (v : prim) :
  NoDup (Object_keys (own obj)) -> NoDup (Object_keys (own (assign obj k v))).
Proof.
  intros H. unfold assign. destruct ((k =? "__proto__") && negb (proto_null obj)).
  - destruct v; assumption.
  - simpl. now apply NoDup_define_prop.
Qed.



Lemma NoDup_collect (rows : list NodeRow) (obj : ObjectLiteral) :
  NoDup (Object_keys (own obj)) ->
  NoDup (Object_keys (own (fold_left collect_row rows obj))).
Proof.
  revert obj; induction rows as [|r rows IH]; intros obj H; simpl.
  - assumption.
  - apply IH. destruct (collect_row_cases obj r) as [(k' & _ & ->)|[_ ->]].
    + now apply NoDup_assign.
    + assumption.
Qed.



Lemma single_keyless_spec (rows : list NodeRow) (r : NodeRow) :
  single_keyless rows = Some r
  <-> rows = [r] /\ (key r = None \/ key r = Some EmptyString).
Proof.
  destruct rows as [|r0 [|r1 rows]]; simpl.
  - split; [discriminate | intros [[=] _]].
  - destruct (key r0) as [[|c s]|] eqn:E; simpl.
    + split; [intros [= <-]; split; [reflexivity | now right] | now intros [[= <-] _]].
    + split; [discriminate|]. intros [[= <-] [H|H]]; congruence.
    + split; [intros [= <-]; split; [reflexivity | now left] | now intros [[= <-] _]].
  - split; [discriminate | intros [[=] _]].
Qed.

(** ** The leaf round trip *)

Lemma Number_toString_first (n : Z) :
  exists c r, Number_toString n = String c r
              /\ (is_digit c = true \/ c = "-"%char).
Proof.
  destruct n as [|p|p].
  - exists "0"%char, EmptyString. split; [reflexivity | now left].
  - rewrite Number_toString_pos.
    destruct (su_head (Pos.to_uint p) (DecimalPos.Unsigned.to_uint_nonnil p))
      as (c & r & -> & Hc).
    exists c, r. split; [reflexivity | now left].
  - rewrite Number_toString_neg. eexists _, _. split; [reflexivity | now right].
Qed.

Lemma parse_value_number (fuel : nat) (c : ascii) (r : string) :
  is_digit c = true \/ c = "-"%char ->
  parse_value (S fuel) (String c r)
  = match parse_number (String c r) with
    | Some (n, rest) => Some (JPrim (PNum n), rest)
    | None => None
    end.
Proof.
  intros [H| ->]; [|reflexivity].
  destruct c as [[] [] [] [] [] [] [] []]; try discriminate H; reflexivity.
Qed.

(** The reference parser reads an integer back from its digits. *)
Lemma JSON_parse_Number_toString (n : Z) :
  JSON_parse (Number_toString n) = inl (JPrim (PNum n)).
Proof.
  unfold JSON_parse.
  replace (2 * String.length (Number_toString n) + 2)%nat
    with (S (2 * String.length (Number_toString n) + 1))%nat by lia.
  destruct (Number_toString_first n) as (c & r & Hs & Hc).
  pose proof (parse_number_toString n EmptyString I eq_refl) as Hp.
  rewrite append_empty_r in Hp.
  rewrite Hs in *. rewrite (parse_value_number _ c r Hc), Hp. reflexivity.
Qed.




Lemma expect_value (word : string) (v v' : json) (s rest : string) :
  expect word v s = Some (v', rest) -> v' = v.
Proof. unfold expect. destruct (String.prefix word s); [|discriminate]. now intros [= <- _]. Qed.


Lemma parse_elements_array (fuel : nat) :
  forall acc s v rest,
    parse_elements fuel acc s = Some (v, rest) -> exists items, v = JArr items.
Proof.
  induction fuel as [|fuel IH]; intros acc s v rest H; [discriminate|].
  simpl in H.
  destruct (parse_value fuel s) as [[x r]|]; [|discriminate].
  destruct (skip_ws r) as [|c r1]; [discriminate|].
  destruct (Ascii.eqb c ",").
  - now apply IH in H.
  - destruct (Ascii.eqb c "]"); [|discriminate]. injection H as <- _. eauto.
Qed.





(** ** The edits of a field-set save *)

Lemma editableKeys_spec (rows : list NodeRow) (k : string) :
  In k (editableKeys rows) <-> exists r, In r rows /\ editable_row k r.
Proof.
  unfold editableKeys, editable_row. rewrite in_map_iff. split.
  - intros (r & Hk & Hin). apply filter_In in Hin. destruct Hin as [Hin Hf].
    apply andb_true_iff in Hf. destruct Hf as [Ht Hkey].
    apply not_container_spec in Ht. apply key_truthy_spec in Hkey.
    destruct Hkey as (s & Hs & Hne). rewrite Hs in Hk. subst s.
    exists r. auto.
  - intros (r & Hin & Hk & Hne & Ht). exists r. split.
    + now rewrite Hk.
    + apply filter_In. split; [assumption|]. apply andb_true_iff. split.
      * now apply not_container_spec.
      * apply key_truthy_spec. now exists k.
Qed.

Lemma union_keys_spec (rows : list NodeRow) (obj : json) (k : string) :
  In k (union_keys rows obj)
  <-> (exists r, In r rows /\ editable_row k r) \/ In k (Object_keys (own_entries obj)).
Proof.
  unfold union_keys, Array_from_Set.
  rewrite fold_Set_add_spec, in_app_iff, editableKeys_spec. simpl. tauto.
Qed.

Lemma union_keys_NoDup (rows : list NodeRow) (obj : json) :
  NoDup (union_keys rows obj).
Proof. apply fold_Set_add_NoDup. constructor. Qed.

Lemma newObj_spec (parsed : json) :
  newObj parsed = match parsed with JObj _ => parsed | _ => JObj [] end.
Proof.
  destruct parsed as [p| |]; try reflexivity.
  destruct p; unfold newObj; simpl; rewrite ?andb_false_r; reflexivity.
Qed.

Section Patching.

Variable Edits : Type.
Variable modify : string -> JSONPath -> option json -> option Edits.
Variable applyEdits : string -> Edits -> option string.

Local Abbreviation patch := (patch Edits modify applyEdits).
Local Abbreviation patch_keys := (patch_keys Edits modify applyEdits).
Local Abbreviation patch_at := (patch_at Edits modify applyEdits).
Local Abbreviation PatchSteps := (PatchSteps Edits modify applyEdits).

Lemma patch_keys_app (p : JSONPath) (obj : json) (l1 l2 : list string) (doc : string) :
  patch_keys p obj (l1 ++ l2)%list doc
  = match patch_keys p obj l1 doc with
    | Some doc1 => patch_keys p obj l2 doc1
    | None => None
    end.
Proof.
  revert doc; induction l1 as [|k l1 IH]; intro doc; simpl.
  - reflexivity.
  - destruct (patch_at doc (p ++ [SegKey k])%list (lookup k (own_entries obj))); [apply IH | reflexivity].
Qed.

Lemma patch_keys_steps (p : JSONPath) (obj : json) (keys : list string) (doc doc' : string) :
  patch_keys p obj keys doc = Some doc'
  <-> PatchSteps doc (field_edits p (own_entries obj) keys) doc'.
Proof.
  revert doc; induction keys as [|k keys IH]; intro doc; simpl.
  - split.
    + intros [= ->]. constructor.
    + intros H. inversion H. reflexivity.
  - destruct (patch_at doc (p ++ [SegKey k])%list (lookup k (own_entries obj)))
      as [doc1|] eqn:E.
    + rewrite IH. split.
      * intros H. econstructor; eassumption.
      * intros H. inversion H; subst. congruence.
    + split; [discriminate|]. intros H. inversion H; subst. congruence.
Qed.

End Patching.

(** ** The outcomes of a save *)

Lemma reselect_frame (p : JSONPath) (st : State) :
  store_json (reselect p st) = store_json st
  /\ contents (reselect p st) = contents st
  /\ nodes (reselect p st) = nodes st
  /\ error (reselect p st) = error st
  /\ opened (reselect p st) = opened st.
Proof. unfold reselect. destruct (find _ _); repeat split. Qed.

Lemma reselect_spec (p : JSONPath) (st : State) :
  ((exists n, In n (nodes st) /\ path n = p) ->
   exists before found after,
     nodes st = (before ++ found :: after)%list
     /\ path found = p
     /\ (forall m, In m before -> path m <> p)
     /\ selectedNode (reselect p st) = Some found)
  /\ ((forall n, In n (nodes st) -> path n <> p) ->
      selectedNode (reselect p st) = selectedNode st).
Proof.
  unfold reselect. pose proof (find_first (same_path p) (nodes st)) as H.
  destruct (find (same_path p) (nodes st)) as [found|].
  - destruct H as (before & after & Hl & Hf & Hb). split.
    + intros _. exists before, found, after. repeat split.
      * assumption.
      * now apply same_path_spec.
      * intros m Hm Hp. apply same_path_spec in Hp. rewrite (Hb m Hm) in Hp.
        discriminate.
    + intros Hnone. exfalso. apply (Hnone found).
      * rewrite Hl. apply in_or_app. right. now left.
      * now apply same_path_spec.
  - split.
    + intros (n & Hin & Hp). apply same_path_spec in Hp.
      rewrite (H n Hin) in Hp. discriminate.
    + reflexivity.
Qed.

Lemma fallback_rows_agree (nd : NodeData) (parsed : json) :
  fallback_rows nd parsed = parsed_rows parsed
  <-> isPrimitiveNode nd = negb (is_plain_object parsed).
Proof.
  unfold fallback_rows. destruct (isPrimitiveNode nd); destruct parsed as [p| items |props].
  - destruct p; now split.
  - now split.
  - rewrite parsed_rows_object. split; [|discriminate].
    intros H. symmetry in H. now apply keyed_rows_not_keyless in H.
  - rewrite parsed_rows_other by discriminate. split; [|discriminate].
    intros H. now apply keyed_rows_not_keyless in H.
  - rewrite parsed_rows_other by discriminate. split; [|discriminate].
    intros H. now apply keyed_rows_not_keyless in H.
  - now split.
Qed.

Section Saving.

Variable JSON_parse : string -> json + string.
Variable Edits : Type.
Variable modify : string -> JSONPath -> option json -> option Edits.
Variable applyEdits : string -> Edits -> option string.
Variable parser : string -> list NodeData.

Local Abbreviation save := (handleSave JSON_parse Edits modify applyEdits parser).
Local Abbreviation saveInline := (handleSaveInline JSON_parse Edits modify applyEdits parser).
Local Abbreviation patch := (patch Edits modify applyEdits).
Local Abbreviation patch_keys := (patch_keys Edits modify applyEdits).
Local Abbreviation patch_at := (patch_at Edits modify applyEdits).
Local Abbreviation setJson := (setJson parser).

Lemma save_parse_error (nodeData : option NodeData) (editorText message : string)
      (st : State) :
  JSON_parse editorText = inr message ->
  save nodeData editorText st = setError message st
  /\ saveInline nodeData editorText st = setError message st.
Proof. intros H. unfold handleSave, handleSaveInline. rewrite H. now split. Qed.

Lemma save_absent (editorText : string) (parsed : json) (st : State) :
  JSON_parse editorText = inl parsed ->
  save None editorText st = onClose st
  /\ saveInline None editorText st = onClose st.
Proof. intros H. unfold handleSave, handleSaveInline. rewrite H. now split. Qed.

Lemma save_committed (nd : NodeData) (editorText : string) (parsed : json)
      (st : State) (newJson : string) :
  JSON_parse editorText = inl parsed ->
  patch nd (isPrimitiveNode nd) parsed (getJson st) = Some newJson ->
  save (Some nd) editorText st = onClose (reselect (path nd) (setJson newJson st))
  /\ saveInline (Some nd) editorText st
     = onClose (reselect (path nd) (setContents newJson (setJson newJson st))).
Proof.
  intros H Hp. unfold handleSave, handleSaveInline. rewrite H. cbv zeta.
  rewrite Hp. now split.
Qed.

Lemma save_fallback (nd : NodeData) (editorText : string) (parsed : json) (st : State) :
  JSON_parse editorText = inl parsed ->
  patch nd (isPrimitiveNode nd) parsed (getJson st) = None ->
  save (Some nd) editorText st
  = onClose (setSelectedNode (mkNode (path nd) (fallback_rows nd parsed)) st)
  /\ saveInline (Some nd) editorText st
     = onClose (setSelectedNode (mkNode (path nd) (parsed_rows parsed)) st).
Proof.
  intros H Hp. unfold handleSave, handleSaveInline. rewrite H. cbv zeta.
  rewrite Hp. now split.
Qed.

(** C4.  When the text is not valid JSON, the save sets the error of the
    session to the message of the parser, leaves the editor as open as it
    was and leaves the document, its mirror, the node list and the selection
    unchanged.  When the text is valid JSON the editor is closed, whether
    the save is committed or falls back.  So an editor that is still open
    after a save had a parse failure.  The same holds of the inline
    editor. *)
Theorem invalid_json_is_the_only_open_outcome
    (nodeData : option NodeData) (editorText : string) (st : State) :
  (forall message, JSON_parse editorText = inr message ->
     let st' := save nodeData editorText st in
     error st' = Some message /\ opened st' = opened st
     /\ store_json st' = store_json st /\ contents st' = contents st
     /\ nodes st' = nodes st /\ selectedNode st' = selectedNode st)
  /\ (forall parsed, JSON_parse editorText = inl parsed ->
       opened (save nodeData editorText st) = false)
  /\ (opened (save nodeData editorText st) = true ->
       exists message, JSON_parse editorText = inr message)
  /\ (forall message, JSON_parse editorText = inr message ->
       saveInline nodeData editorText st = save nodeData editorText st)
  /\ (forall parsed, JSON_parse editorText = inl parsed ->
       opened (saveInline nodeData editorText st) = false).
Proof.
  assert (Hclosed : forall parsed, JSON_parse editorText = inl parsed ->
            opened (save nodeData editorText st) = false).
  { intros parsed H. unfold handleSave. rewrite H. reflexivity. }
  split.
  { intros message H. unfold handleSave. rewrite H. cbv zeta. repeat split. }
  split; [exact Hclosed|]. split.
  { intros Hopen. destruct (JSON_parse editorText) as [parsed|message] eqn:H.
    - rewrite (Hclosed parsed eq_refl) in Hopen. discriminate.
    - now exists message. }
  split.
  { intros message H.
    destruct (save_parse_error nodeData editorText message st H) as [-> ->].
    reflexivity. }
  intros parsed H. unfold handleSaveInline. rewrite H. reflexivity.
Qed.

(** C10.  A save with an absent node and valid JSON text leaves the
    document, its mirror, the node list and the selection unchanged and
    closes the editor, whatever the patcher would do: the result does not
    depend on it.  With invalid JSON text it sets the error of the session to
    the message and leaves the editor open, and the result is the one that
    the same save yields with any node.  Both hold of both editors. *)
Theorem absent_node_save_is_a_no_op (editorText : string) (st : State) :
  (forall parsed, JSON_parse editorText = inl parsed ->
     save None editorText st = onClose st
     /\ saveInline None editorText st = onClose st
     /\ store_json (onClose st) = store_json st
     /\ contents (onClose st) = contents st
     /\ nodes (onClose st) = nodes st
     /\ selectedNode (onClose st) = selectedNode st
     /\ opened (onClose st) = false
     /\ forall (Edits' : Type) modify' applyEdits',
          handleSave JSON_parse Edits' modify' applyEdits' parser None editorText st
          = save None editorText st
          /\ handleSaveInline JSON_parse Edits' modify' applyEdits' parser None editorText st
             = saveInline None editorText st)
  /\ (forall message, JSON_parse editorText = inr message ->
       save None editorText st = setError message st
       /\ saveInline None editorText st = setError message st
       /\ error (setError message st) = Some message
       /\ opened (setError message st) = opened st
       /\ forall nd,
            save (Some nd) editorText st = save None editorText st
            /\ saveInline (Some nd) editorText st = saveInline None editorText st).
Proof.
  split.
  - intros parsed H. unfold handleSave, handleSaveInline. rewrite H.
    repeat split.
  - intros message H. unfold handleSave, handleSaveInline. rewrite H.
    repeat split.
Qed.

(** C2.  In a field-set save (the node is not primitive), when the
    edits of the first keys have gone through and the edit of the next key
    fails, in [modify] or in [applyEdits], the text of the document after
    the save is the text before it: no edit of that save is committed.  The
    mirror and the node list are unchanged as well, in both editors. *)
Theorem failed_field_set_save_keeps_document
    (nd : NodeData) (editorText : string) (parsed : json) (st : State)
    (done : list string) (k : string) (todo : list string) (partial : string) :
  JSON_parse editorText = inl parsed ->
  isPrimitiveNode nd = false ->
  union_keys (text nd) (newObj parsed) = (done ++ k :: todo)%list ->
  patch_keys (path nd) (newObj parsed) done (getJson st) = Some partial ->
  patch_at partial (path nd ++ [SegKey k])%list
           (lookup k (own_entries (newObj parsed))) = None ->
  store_json (save (Some nd) editorText st) = store_json st
  /\ contents (save (Some nd) editorText st) = contents st
  /\ nodes (save (Some nd) editorText st) = nodes st
  /\ store_json (saveInline (Some nd) editorText st) = store_json st
  /\ contents (saveInline (Some nd) editorText st) = contents st
  /\ nodes (saveInline (Some nd) editorText st) = nodes st.
Proof.
  intros Hparse Hleaf Hkeys Hdone Hfail.
  assert (Hpatch : patch nd (isPrimitiveNode nd) parsed (getJson st) = None).
  { unfold patch. rewrite Hleaf, Hkeys, patch_keys_app, Hdone. simpl.
    now rewrite Hfail. }
  destruct (save_fallback nd editorText parsed st Hparse Hpatch) as [-> ->].
  repeat split.
Qed.

(** C8.  After a committed save the node list is the one rebuilt from the
    new text.  If some node of that list has the path of the edited node,
    the selected node becomes such a node, the first of the list; if no node
    of the list has that path, the selection is what it was. *)
Theorem reselection_after_commit
    (nd : NodeData) (editorText : string) (parsed : json) (st : State) (newJson : string) :
  JSON_parse editorText = inl parsed ->
  patch nd (isPrimitiveNode nd) parsed (getJson st) = Some newJson ->
  let st' := save (Some nd) editorText st in
  nodes st' = parser newJson
  /\ ((exists n, In n (parser newJson) /\ path n = path nd) ->
      exists before found after,
        parser newJson = (before ++ found :: after)%list
        /\ path found = path nd
        /\ (forall m, In m before -> path m <> path nd)
        /\ selectedNode st' = Some found)
  /\ ((forall n, In n (parser newJson) -> path n <> path nd) ->
      selectedNode st' = selectedNode st).
Proof.
  intros Hparse Hpatch st'.
  destruct (save_committed nd editorText parsed st newJson Hparse Hpatch) as [Hsave _].
  subst st'. rewrite Hsave.
  destruct (reselect_spec (path nd) (setJson newJson st)) as [Hfound Hnone].
  split; [|split].
  - simpl. now destruct (reselect_frame (path nd) (setJson newJson st))
      as (_ & _ & -> & _).
  - intros Hex. destruct (Hfound Hex) as (before & found & after & H1 & H2 & H3 & H4).
    exists before, found, after. repeat split; assumption.
  - intros Hno. simpl. now rewrite (Hnone Hno).
Qed.

(** X13.  On every node, text and state the two editors leave the same
    document text, the same node list, the same session error and the same
    open state.  They select the same node when the node is absent, when the
    text does not parse and when the save is committed.  When the save falls
    back, [EditableNodeModal] selects the node with the rows of its own
    fallback and the inline editor selects it with the rows of the parsed
    value, and the two agree exactly when the node is primitive and the
    parsed value is no plain object, or the node is not primitive and the
    parsed value is a plain object. *)
Theorem editors_agree_up_to_fallback_rows
    (nodeData : option NodeData) (editorText : string) (st : State) :
  let a := save nodeData editorText st in
  let b := saveInline nodeData editorText st in
  store_json a = store_json b /\ nodes a = nodes b
  /\ error a = error b /\ opened a = opened b
  /\ (nodeData = None -> selectedNode a = selectedNode b)
  /\ (forall message, JSON_parse editorText = inr message ->
      selectedNode a = selectedNode b)
  /\ (forall nd parsed newJson,
        nodeData = Some nd -> JSON_parse editorText = inl parsed ->
        patch nd (isPrimitiveNode nd) parsed (getJson st) = Some newJson ->
        selectedNode a = selectedNode b)
  /\ (forall nd parsed,
        nodeData = Some nd -> JSON_parse editorText = inl parsed ->
        patch nd (isPrimitiveNode nd) parsed (getJson st) = None ->
        selectedNode a = Some (mkNode (path nd) (fallback_rows nd parsed))
        /\ selectedNode b = Some (mkNode (path nd) (parsed_rows parsed))
        /\ (selectedNode a = selectedNode b
            <-> isPrimitiveNode nd = negb (is_plain_object parsed))).
Proof.
  intros a b. subst a b.
  destruct (JSON_parse editorText) as [parsed|message] eqn:Hparse.
  2:{ destruct (save_parse_error nodeData editorText message st Hparse) as [-> ->].
      repeat split; try reflexivity; discriminate. }
  destruct nodeData as [nd|].
  2:{ destruct (save_absent editorText parsed st Hparse) as [-> ->].
      repeat split; try reflexivity; discriminate. }
  destruct (patch nd (isPrimitiveNode nd) parsed (getJson st)) as [newJson|] eqn:Hpatch.
  - destruct (save_committed nd editorText parsed st newJson Hparse Hpatch) as [-> ->].
    unfold reselect. simpl.
    destruct (find (same_path (path nd)) (parser newJson));
      (split; [reflexivity|]); (split; [reflexivity|]); (split; [reflexivity|]);
      (split; [reflexivity|]); (split; [discriminate|]); (split; [discriminate|]);
      (split; [reflexivity|]); intros nd' parsed' [= <-] [= <-] H;
      rewrite Hpatch in H; discriminate.
  - destruct (save_fallback nd editorText parsed st Hparse Hpatch) as [-> ->].
    simpl.
    (split; [reflexivity|]); (split; [reflexivity|]); (split; [reflexivity|]);
      (split; [reflexivity|]); (split; [discriminate|]); (split; [discriminate|]).
    split.
    + intros nd' parsed' newJson [= <-] [= <-] H. rewrite Hpatch in H. discriminate.
    + intros nd' parsed' [= <-] [= <-] _. split; [reflexivity|]. split; [reflexivity|].
      rewrite <- fallback_rows_agree. split.
      * intros [= H]. exact H.
      * intros ->. reflexivity.
Qed.

End Saving.

(** * Further properties *)

(** ** The order of the keys of an object *)

Lemma array_index_canonical (k : string) (n : N) :
  array_index k = Some n -> k = NilZero.string_of_uint (N.to_uint n).
Proof.
  unfold array_index. destruct (NilZero.uint_of_string k) as [d|]; [|discriminate].
  destruct (k =? NilZero.string_of_uint (N.to_uint (N.of_uint d))) eqn:E; [|discriminate].
  destruct (N.of_uint d <? 4294967295)%N; [|discriminate].
  simpl. intros [= <-]. now apply String.eqb_eq in E.
Qed.

Lemma array_index_inj (k1 k2 : string) (n : N) :
  array_index k1 = Some n -> array_index k2 = Some n -> k1 = k2.
Proof.
  intros H1 H2. apply array_index_canonical in H1, H2. congruence.
Qed.

Lemma key_before_neq (k1 k2 : string) : key_before k1 k2 -> k1 <> k2.
Proof.
  unfold key_before. intros H ->.
  destruct (array_index k2); [lia | now apply H].
Qed.

Lemma key_before_index_trans (k1 k2 k3 : string) (i : N) :
  array_index k1 = Some i -> key_before k1 k2 -> key_before k2 k3 -> key_before k1 k3.
Proof.
  unfold key_before. intros ->.
  destruct (array_index k2), (array_index k3); try tauto. lia.
Qed.

Lemma StronglySorted_app_inv {A : Type} (R : A -> A -> Prop) (l1 l2 : list A) :
  StronglySorted R (l1 ++ l2)%list ->
  StronglySorted R l1 /\ StronglySorted R l2
  /\ forall x y, In x l1 -> In y l2 -> R x y.
Proof.
  induction l1 as [|a l1 IH]; simpl; intros H.
  - repeat split; [constructor | assumption | intros x y []].
  - apply StronglySorted_inv in H. destruct H as [Hs Hf].
    destruct (IH Hs) as (H1 & H2 & H12). rewrite Forall_app in Hf.
    destruct Hf as [Hf1 Hf2]. repeat split.
    + now constructor.
    + assumption.
    + intros x y [<-|Hx] Hy.
      * rewrite Forall_forall in Hf2. now apply Hf2.
      * now apply H12.
Qed.

Section CanonicalProps.

Context {A : Type}.
Implicit Types (props : list (string * A)) (k : string) (v : A).

Lemma Forall_keys_insert_index (P : string -> Prop) (i : N) k v props :
  Forall P (Object_keys (insert_index i k v props))
  <-> P k /\ Forall P (Object_keys props).
Proof.
  rewrite !Forall_forall. split.
  - intros H. split.
    + apply H. apply keys_insert_index. now left.
    + intros x Hx. apply H. apply keys_insert_index. now right.
  - intros [Hk H] x Hx. apply keys_insert_index in Hx.
    destruct Hx as [->|Hx]; [assumption | now apply H].
Qed.

Lemma canonical_insert_index (i : N) k v props :
  array_index k = Some i -> ~ In k (Object_keys props) ->
  canonical props -> canonical (insert_index i k v props).
Proof.
  unfold canonical. intros Hi.
  induction props as [|[k' v'] props IH]; simpl; intros Hk Hc.
  - constructor; constructor.
  - apply StronglySorted_inv in Hc. destruct Hc as [Hs Hf].
    assert (Hne : k' <> k) by (intros E; apply Hk; now left).
    assert (Hk' : ~ In k (Object_keys props)) by (intros E; apply Hk; now right).
    destruct (array_index k') as [j|] eqn:Hj.
    + destruct (N.ltb_spec i j) as [Hlt|Hge]; simpl.
      * constructor; [now constructor|]. constructor.
        { unfold key_before. now rewrite Hi, Hj. }
        rewrite Forall_forall in *. intros x Hx.
        apply (key_before_index_trans k k' x i Hi); [|now apply Hf].
        unfold key_before. now rewrite Hi, Hj.
      * assert (j <> i) by (intros ->; apply Hne; now apply (array_index_inj k' k i)).
        constructor; [now apply IH|].
        apply Forall_keys_insert_index. split; [|assumption].
        unfold key_before. rewrite Hj, Hi. lia.
    + simpl. constructor; [now constructor|]. constructor.
      { unfold key_before. now rewrite Hi, Hj. }
      rewrite Forall_forall in *. intros x Hx. specialize (Hf x Hx).
      unfold key_before in *. rewrite Hj in Hf. rewrite Hi.
      destruct (array_index x); [contradiction | exact I].
Qed.

Lemma canonical_app_end k v props :
  array_index k = None -> ~ In k (Object_keys props) ->
  canonical props -> canonical (props ++ [(k, v)])%list.
Proof.
  unfold canonical. intros Hi.
  induction props as [|[k' v'] props IH]; simpl; intros Hk Hc.
  - constructor; constructor.
  - apply StronglySorted_inv in Hc. destruct Hc as [Hs Hf].
    constructor.
    + apply IH; [intros E; apply Hk; now right | assumption].
    + unfold Object_keys. rewrite map_app, Forall_app. split; [assumption|].
      constructor; [|constructor]. simpl. unfold key_before. rewrite Hi.
      destruct (array_index k'); [exact I|]. intros ->. apply Hk. now left.
Qed.

Lemma canonical_define_prop k v props :
  canonical props -> canonical (define_prop k v props).
Proof.
  intros Hc. unfold define_prop, hasOwnProperty.
  destruct (lookup k props) as [x|] eqn:E.
  - unfold canonical. now rewrite keys_update_prop.
  - apply lookup_None in E. destruct (array_index k) as [i|] eqn:Hi.
    + now apply canonical_insert_index.
    + now apply canonical_app_end.
Qed.

Lemma insert_index_end (i : N) k v props :
  (forall x, In x (Object_keys props) ->
             exists j, array_index x = Some j /\ (j < i)%N) ->
  insert_index i k v props = (props ++ [(k, v)])%list.
Proof.
  induction props as [|[k' v'] props IH]; simpl; intros H.
  - reflexivity.
  - destruct (H k' (or_introl eq_refl)) as (j & -> & Hlt).
    destruct (N.ltb_spec i j); [lia|].
    rewrite IH; [reflexivity|]. intros x Hx. apply H. now right.
Qed.

Lemma define_prop_end k v props :
  canonical (props ++ [(k, v)])%list -> define_prop k v props = (props ++ [(k, v)])%list.
Proof.
  unfold canonical, Object_keys. rewrite map_app. simpl. intros Hc.
  apply StronglySorted_app_inv in Hc. destruct Hc as (_ & _ & Hb).
  assert (Hbefore : forall x, In x (map fst props) -> key_before x k).
  { intros x Hx. apply Hb; [assumption | now left]. }
  unfold define_prop, hasOwnProperty.
  assert (lookup k props = None) as ->.
  { apply lookup_None. intros Hin. now apply (key_before_neq k k (Hbefore k Hin)). }
  destruct (array_index k) as [i|] eqn:Hi; [|reflexivity].
  apply insert_index_end. intros x Hx. specialize (Hbefore x Hx).
  unfold key_before in Hbefore. rewrite Hi in Hbefore.
  destruct (array_index x) as [j|]; [now exists j | contradiction].
Qed.

(** Defining the properties of an object one after the other, in the order
    in which the object lists them, builds the same list. *)
Lemma define_props_in_order (l2 l1 : list (string * A)) :
  canonical (l1 ++ l2)%list ->
  fold_left (fun acc kv => define_prop (fst kv) (snd kv) acc) l2 l1 = (l1 ++ l2)%list.
Proof.
  revert l1; induction l2 as [|[k v] l2 IH]; intros l1 Hc; simpl.
  - now rewrite List.app_nil_r.
  - assert (Heq : (l1 ++ (k, v) :: l2)%list = ((l1 ++ [(k, v)]) ++ l2)%list)
      by now rewrite <- List.app_assoc.
    rewrite Heq in Hc. rewrite define_prop_end.
    + rewrite IH by assumption. now rewrite <- List.app_assoc.
    + unfold canonical, Object_keys in *. rewrite map_app in Hc.
      now apply StronglySorted_app_inv in Hc.
Qed.

End CanonicalProps.

Lemma canonical_map {A B : Type} (f : A -> B) (props : list (string * A)) :
  canonical props -> canonical (map (fun kv => (fst kv, f (snd kv))) props).
Proof.
  unfold canonical, Object_keys. rewrite map_map. simpl. trivial.
Qed.

Lemma canonical_assign (obj : ObjectLiteral) (k : string) (v : prim) :
  canonical (own obj) -> canonical (own (assign obj k v)).
Proof.
  intros H. unfold assign. destruct ((k =? "__proto__") && negb (proto_null obj)).
  - destruct v; assumption.
  - simpl. now apply canonical_define_prop.
Qed.

Lemma canonical_collect (rows : list NodeRow) (obj : ObjectLiteral) :
  canonical (own obj) -> canonical (own (fold_left collect_row rows obj)).
Proof.
  revert obj; induction rows as [|r rows IH]; intros obj H; simpl.
  - assumption.
  - apply IH. destruct (collect_row_cases obj r) as [(k' & _ & ->)|[_ ->]].
    + now apply canonical_assign.
    + assumption.
Qed.

Lemma canonical_editable_object (rows : list NodeRow) :
  canonical (editable_object rows).
Proof.
  unfold editable_object. apply canonical_map. apply canonical_collect. constructor.
Qed.

(** ** The text of the projector is read back by the parser *)






















Lemma JSON_parse_ToString (v : prim) :
  (forall s, v <> PStr s) -> JSON_parse (ToString v) = inl (JPrim v).
Proof.
  intros Hs. destruct v as [|[|]|n|s]; try reflexivity.
  - apply JSON_parse_Number_toString.
  - now elim (Hs s).
Qed.


(** ** Saving what the editor shows *)

Section SeededSave.

Variable Edits : Type.
Variable modify : string -> JSONPath -> option json -> option Edits.
Variable applyEdits : string -> Edits -> option string.
Variable parser : string -> list NodeData.

Local Abbreviation save := (handleSave JSON_parse Edits modify applyEdits parser).
Local Abbreviation saveInline := (handleSaveInline JSON_parse Edits modify applyEdits parser).
Local Abbreviation patch := (patch Edits modify applyEdits).
Local Abbreviation patch_at := (patch_at Edits modify applyEdits).


(** X3.  A primitive node whose string is the text of [null], of a boolean
    or of a safe integer is seeded with that text, which parses to the value
    and not to the string: saved unchanged, the only edit replaces the
    string at the path of the node by the value of the other type, and the
    fallback row has that type. *)
Theorem string_leaf_is_retyped (p : JSONPath) (v : prim) (doc : string) :
  (forall s, v <> PStr s) ->
  (forall n, v = PNum n -> safe_integer n) ->
  let nd := leaf p (PStr (ToString v)) in
  getEditableString (Some nd) = ToString v
  /\ JSON_parse (getEditableString (Some nd)) = inl (JPrim v)
  /\ JPrim v <> JPrim (PStr (ToString v))
  /\ patch nd (isPrimitiveNode nd) (JPrim v) doc = patch_at doc p (Some (JPrim v))
  /\ fallback_rows nd (JPrim v) = [mkRow None v (jsonType (JPrim v))]
  /\ parsed_rows (JPrim v) = [mkRow None v (jsonType (JPrim v))].
Proof.
  intros Hs _ nd. split; [reflexivity|]. split.
  { change (getEditableString (Some nd)) with (ToString v).
    now apply JSON_parse_ToString. }
  split.
  { intros [= E]. now apply (Hs (ToString v)). }
  split; [reflexivity|]. split; [reflexivity|].
  destruct v; reflexivity.
Qed.

End SeededSave.

(** ** What a save leaves alone *)

Section Frames.

Variable JSON_parse : string -> json + string.
Variable Edits : Type.
Variable modify : string -> JSONPath -> option json -> option Edits.
Variable applyEdits : string -> Edits -> option string.
Variable parser : string -> list NodeData.

Local Abbreviation save := (handleSave JSON_parse Edits modify applyEdits parser).
Local Abbreviation saveInline := (handleSaveInline JSON_parse Edits modify applyEdits parser).
Local Abbreviation patch := (patch Edits modify applyEdits).

Lemma save_cases (nodeData : option NodeData) (editorText : string) (st : State) :
  (exists message,
     save nodeData editorText st = setError message st
     /\ saveInline nodeData editorText st = setError message st)
  \/ (save nodeData editorText st = onClose st
      /\ saveInline nodeData editorText st = onClose st)
  \/ (exists nd newJson,
        nodeData = Some nd
        /\ save nodeData editorText st
           = onClose (reselect (path nd) (setJson parser newJson st))
        /\ saveInline nodeData editorText st
           = onClose (reselect (path nd)
                        (setContents newJson (setJson parser newJson st))))
  \/ (exists nd rows rows',
        nodeData = Some nd
        /\ save nodeData editorText st
           = onClose (setSelectedNode (mkNode (path nd) rows) st)
        /\ saveInline nodeData editorText st
           = onClose (setSelectedNode (mkNode (path nd) rows') st)).
Proof.
  destruct (JSON_parse editorText) as [parsed|message] eqn:Hp.
  - destruct nodeData as [nd|].
    + destruct (patch nd (isPrimitiveNode nd) parsed (getJson st)) as [newJson|] eqn:E.
      * right. right. left. exists nd, newJson. split; [reflexivity|].
        exact (save_committed JSON_parse Edits modify applyEdits parser
                 nd editorText parsed st newJson Hp E).
      * right. right. right. exists nd, (fallback_rows nd parsed), (parsed_rows parsed).
        split; [reflexivity|].
        exact (save_fallback JSON_parse Edits modify applyEdits parser
                 nd editorText parsed st Hp E).
    + right. left.
      exact (save_absent JSON_parse Edits modify applyEdits parser
               editorText parsed st Hp).
  - left. exists message.
    exact (save_parse_error JSON_parse Edits modify applyEdits parser
             nodeData editorText message st Hp).
Qed.

(** X4.  [EditableNodeModal] never writes the mirror of the document: on
    every node, text and state the mirror after the save is the mirror
    before it, so that a committed save leaves the mirror behind the new
    document.  The inline editor writes the new document to the mirror when
    it commits, and keeps the mirror equal to the document: when they are
    equal before a save they are equal after it. *)
Theorem mirror_of_the_document
    (nodeData : option NodeData) (editorText : string) (st : State) :
  contents (save nodeData editorText st) = contents st
  /\ (contents st = store_json st ->
      contents (saveInline nodeData editorText st)
      = store_json (saveInline nodeData editorText st))
  /\ (forall nd parsed newJson,
        nodeData = Some nd -> JSON_parse editorText = inl parsed ->
        patch nd (isPrimitiveNode nd) parsed (getJson st) = Some newJson ->
        store_json (save nodeData editorText st) = newJson
        /\ store_json (saveInline nodeData editorText st) = newJson
        /\ contents (saveInline nodeData editorText st) = newJson).
Proof.
  split; [|split].
  - destruct (save_cases nodeData editorText st)
      as [(message & -> & _)|[[-> _]|[(nd & newJson & _ & -> & _)
                                      |(nd & rows & rows' & _ & -> & _)]]];
      try reflexivity.
    simpl. now destruct (reselect_frame (path nd) (setJson parser newJson st))
      as (_ & -> & _).
  - destruct (save_cases nodeData editorText st)
      as [(message & _ & ->)|[[_ ->]|[(nd & newJson & _ & _ & ->)
                                      |(nd & rows & rows' & _ & _ & ->)]]];
      trivial.
    intros _. simpl.
    now destruct (reselect_frame (path nd)
                    (setContents newJson (setJson parser newJson st)))
      as (-> & -> & _).
  - intros nd parsed newJson -> Hp Hpatch.
    destruct (save_committed JSON_parse Edits modify applyEdits parser
                nd editorText parsed st newJson Hp Hpatch) as [-> ->].
    simpl.
    destruct (reselect_frame (path nd) (setJson parser newJson st)) as (-> & _).
    destruct (reselect_frame (path nd) (setContents newJson (setJson parser newJson st)))
      as (-> & -> & _).
    repeat split.
Qed.

(** X5.  A save never moves the selection to another path: after it the
    selected node is the one selected before, or a node at the path of the
    edited node.  The same holds of the inline editor. *)
Theorem selection_stays_at_the_path
    (nodeData : option NodeData) (editorText : string) (st : State) :
  (selectedNode (save nodeData editorText st) = selectedNode st
   \/ exists nd n, nodeData = Some nd
                   /\ selectedNode (save nodeData editorText st) = Some n
                   /\ path n = path nd)
  /\ (selectedNode (saveInline nodeData editorText st) = selectedNode st
      \/ exists nd n, nodeData = Some nd
                      /\ selectedNode (saveInline nodeData editorText st) = Some n
                      /\ path n = path nd).
Proof.
  assert (Hre : forall p s, selectedNode (reselect p s) = selectedNode s
                            \/ exists n, selectedNode (reselect p s) = Some n
                                         /\ path n = p).
  { intros p s. unfold reselect.
    destruct (find (same_path p) (nodes s)) as [found|] eqn:E; [|now left].
    right. exists found. split; [reflexivity|].
    apply find_some in E. now apply same_path_spec. }
  destruct (save_cases nodeData editorText st)
    as [(message & -> & ->)|[[-> ->]|[(nd & newJson & -> & -> & ->)
                                      |(nd & rows & rows' & -> & -> & ->)]]].
  - split; now left.
  - split; now left.
  - split.
    + destruct (Hre (path nd) (setJson parser newJson st)) as [H|(n & H & Hp)].
      * left. simpl. now rewrite H.
      * right. exists nd, n. simpl. auto.
    + destruct (Hre (path nd) (setContents newJson (setJson parser newJson st)))
        as [H|(n & H & Hp)].
      * left. simpl. now rewrite H.
      * right. exists nd, n. simpl. auto.
  - split; right; eexists nd, _; (split; [reflexivity|]); split; reflexivity.
Qed.

End Frames.

(** ** Which keys a field-set save sets and deletes *)

Lemma In_field_edits (p : JSONPath) (props : list (string * json)) (keys : list string)
      (k : string) (v : option json) :
  In ((p ++ [SegKey k])%list, v) (field_edits p props keys)
  <-> In k keys /\ v = lookup k props.
Proof.
  unfold field_edits. rewrite in_map_iff. split.
  - intros (k' & [= Hp Hv] & Hin). apply app_inj_tail in Hp.
    destruct Hp as [_ [= ->]]. now split.
  - intros [Hin ->]. now exists k.
Qed.





Lemma fold_Set_add_prefix (l seen : list string) :
  exists added,
    fold_left Set_add l seen = (seen ++ added)%list
    /\ forall k, In k added <-> In k l /\ ~ In k seen.
Proof.
  revert seen; induction l as [|x l IH]; intro seen; simpl.
  - exists []. rewrite List.app_nil_r. split; [reflexivity|]. intros k. simpl. tauto.
  - destruct (IH (Set_add seen x)) as (added & Heq & Hin). unfold Set_add in *.
    destruct (existsb (String.eqb x) seen) eqn:E.
    + apply existsb_eqb_In in E. exists added. split; [assumption|].
      intros k. rewrite Hin. split.
      * intros [H1 H2]. auto.
      * intros [[->|H1] H2]; [contradiction | auto].
    + assert (Hx : ~ In x seen).
      { intros H. apply existsb_eqb_In in H. congruence. }
      exists (x :: added). rewrite Heq, <- List.app_assoc. split; [reflexivity|].
      intros k. simpl. rewrite Hin, in_app_iff. simpl. split.
      * intros [<-|[H1 H2]]; [auto|]. split; [auto|]. intros H. apply H2. now left.
      * intros [Hor H2]. destruct (String.eqb_spec x k) as [->|Hne]; [now left|].
        right. destruct Hor as [E1|H1]; [contradiction|]. split; [assumption|].
        intros [H|[E2|[]]]; contradiction.
Qed.

Section FieldSet.

Variable Edits : Type.
Variable modify : string -> JSONPath -> option json -> option Edits.
Variable applyEdits : string -> Edits -> option string.

Local Abbreviation patch := (patch Edits modify applyEdits).
Local Abbreviation PatchSteps := (PatchSteps Edits modify applyEdits).

(** X6.  In the save of a node that is not primitive, whose edits are those
    of [edits] in order, a key is deleted exactly when some row of the node
    has it as a non-empty key with a type other than object and array and
    the edited object lacks it; a key is set exactly when the edited object
    has it, to the value it has there.  So the key of a row of type object
    or array is never deleted on account of that row, and is overwritten
    when the edited object names it. *)
Theorem field_set_save_sets_and_deletes (nd : NodeData) (parsed : json) :
  isPrimitiveNode nd = false ->
  let props := own_entries (newObj parsed) in
  let edits := field_edits (path nd) props (union_keys (text nd) (newObj parsed)) in
  (forall doc doc',
     patch nd (isPrimitiveNode nd) parsed doc = Some doc' <-> PatchSteps doc edits doc')
  /\ (forall k,
        In ((path nd ++ [SegKey k])%list, None) edits
        <-> (exists r, In r (text nd) /\ editable_row k r)
            /\ ~ In k (Object_keys props))
  /\ (forall k v,
        In ((path nd ++ [SegKey k])%list, Some v) edits <-> lookup k props = Some v)
  /\ (forall p v, In (p, v) edits -> exists k, p = (path nd ++ [SegKey k])%list).
Proof.
  intros Hleaf props edits. split; [|split; [|split]].
  - intros doc doc'. unfold patch. rewrite Hleaf. apply patch_keys_steps.
  - intros k. unfold edits. rewrite In_field_edits, union_keys_spec.
    fold props. rewrite (lookup_None k props). split.
    + intros [[H|H] Hn]; [now split|].
      apply lookup_In in H. destruct H as (v & Hv). congruence.
    + intros [H Hn]. split; [now left | now symmetry].
  - intros k v. unfold edits. rewrite In_field_edits, union_keys_spec. fold props.
    split.
    + intros [_ H]. now symmetry.
    + intros H. split; [|now symmetry]. right. apply lookup_In. now exists v.
  - intros p v H. unfold edits, field_edits in H. apply in_map_iff in H.
    destruct H as (k & [= <- _] & _). now exists k.
Qed.


End FieldSet.

Lemma filter_filter_andb {A : Type} (f g : A -> bool) (l : list A) :
  filter f (filter g l) = filter (fun x => g x && f x) l.
Proof.
  induction l as [|x l IH]; simpl; [reflexivity|].
  destruct (g x); simpl; [destruct (f x)|]; now rewrite IH.
Qed.

Lemma In_first_occurrences (l : list string) (k : string) :
  In k (first_occurrences l) <-> In k l.
Proof.
  induction l as [|x l IH]; simpl; [tauto|].
  rewrite filter_In, IH, negb_true_iff, String.eqb_neq. split.
  - intros [H|[H _]]; auto.
  - intros [H|H]; [now left|]. destruct (String.eqb_spec k x) as [->|Hne]; auto.
Qed.

Lemma NoDup_first_occurrences (l : list string) : NoDup (first_occurrences l).
Proof.
  induction l as [|x l IH]; simpl; constructor.
  - rewrite filter_In, String.eqb_refl. intros [_ H]. discriminate H.
  - now apply NoDup_filter.
Qed.

(** A set filled from a list holds what it held, then the first occurrences
    of the strings of the list that it did not hold. *)
Lemma fold_Set_add_first (l seen : list string) :
  fold_left Set_add l seen
  = (seen ++ filter (fun k => negb (existsb (String.eqb k) seen))
                    (first_occurrences l))%list.
Proof.
  revert seen; induction l as [|x l IH]; intro seen; simpl.
  - now rewrite List.app_nil_r.
  - rewrite IH. unfold Set_add. rewrite filter_filter_andb.
    destruct (existsb (String.eqb x) seen) eqn:E; simpl.
    + f_equal. apply filter_ext. intros k.
      destruct (String.eqb_spec k x) as [->|Hne]; simpl; [now rewrite E | reflexivity].
    + rewrite <- List.app_assoc. simpl. do 2 f_equal. apply filter_ext. intros k.
      rewrite existsb_app. simpl.
      destruct (existsb (String.eqb k) seen), (k =? x); reflexivity.
Qed.

Lemma Array_from_Set_first (l : list string) :
  Array_from_Set l = first_occurrences l.
Proof.
  unfold Array_from_Set. rewrite fold_Set_add_first. simpl.
  induction (first_occurrences l) as [|x f IH]; simpl; [reflexivity | now rewrite IH].
Qed.

Lemma editableKeys_rows (rows : list NodeRow) :
  editableKeys rows = flat_map editable_key rows.
Proof.
  unfold editableKeys. induction rows as [|r rows IH]; simpl; [reflexivity|].
  unfold editable_key at 1.
  destruct r as [[[|c k]|] v []]; simpl; rewrite <- IH; reflexivity.
Qed.

Lemma In_editable_key (rows : list NodeRow) (k : string) :
  In k (flat_map editable_key rows) <-> exists r, In r rows /\ editable_row k r.
Proof.
  rewrite in_flat_map. unfold editable_key, editable_row. split.
  - intros (r & Hin & Hk). exists r. split; [assumption|].
    destruct (key r) as [[|c s]|]; [destruct Hk | | destruct Hk].
    destruct (is_container (type r)); [destruct Hk|].
    destruct Hk as [<-|[]]. repeat split. discriminate.
  - intros (r & Hin & Hkey & Hne & Ht). exists r. split; [assumption|].
    rewrite Hkey, Ht. destruct k; [now elim Hne | now left].
Qed.

(** X8.  The keys of a field-set save come in this order: first the keys of
    the editable rows of the node, row by row, each at its first occurrence
    only; then the keys of the edited object that no editable row has, in
    the order of the object.  The first are the keys of the rows whose key
    is a non-empty string and whose type is neither object nor array, and
    no key comes twice. *)
Theorem editable_keys_are_edited_first (rows : list NodeRow) (obj : json) :
  union_keys rows obj
  = (first_occurrences (flat_map editable_key rows)
     ++ filter (fun k => negb (existsb (String.eqb k) (flat_map editable_key rows)))
               (first_occurrences (Object_keys (own_entries obj))))%list
  /\ (forall k, In k (flat_map editable_key rows)
                <-> exists r, In r rows /\ editable_row k r)
  /\ NoDup (union_keys rows obj).
Proof.
  split; [|split; [apply In_editable_key | apply union_keys_NoDup]].
  unfold union_keys, Array_from_Set. rewrite fold_left_app, <- editableKeys_rows.
  rewrite fold_Set_add_first. fold (Array_from_Set (editableKeys rows)).
  rewrite Array_from_Set_first. f_equal. apply filter_ext. intros k. f_equal.
  destruct (existsb (String.eqb k) (editableKeys rows)) eqn:E.
  - rewrite existsb_eqb_In, In_first_occurrences, <- existsb_eqb_In. exact E.
  - destruct (existsb (String.eqb k) (first_occurrences (editableKeys rows))) eqn:F;
      [|reflexivity].
    rewrite existsb_eqb_In, In_first_occurrences, <- existsb_eqb_In in F.
    rewrite F in E. discriminate E.
Qed.

(** ** A path label names one path *)

Lemma until_dquote_spec (s t : string) :
  quote_free s = true -> until_dquote (s ++ String dquote t) = Some (s, t).
Proof.
  induction s as [|c s IH]; simpl.
  - reflexivity.
  - intros H. apply andb_true_iff in H. destruct H as [Hc Hs].
    apply negb_true_iff in Hc. rewrite Hc, (IH Hs). reflexivity.
Qed.

Lemma read_bracketed_spec (seg : Segment) (t : string) :
  plain_segment seg -> read_bracketed (bracketed seg ++ t) = Some (seg, t).
Proof.
  destruct seg as [s|n]; unfold bracketed, segment_label; simpl; intros H.
  - rewrite !append_assoc. simpl. now rewrite (until_dquote_spec s _ H).
  - destruct (Number_toString_head n) as (c & r & Hs & Hc).
    pose proof (parse_number_toString n (String "]" t) eq_refl eq_refl) as Hp.
    rewrite append_assoc. simpl. rewrite Hs in *. simpl in *. now rewrite Hc, Hp.
Qed.

Lemma concat_bracketed (seg : Segment) (p : JSONPath) :
  String.concat EmptyString (map bracketed (seg :: p))
  = bracketed seg ++ String.concat EmptyString (map bracketed p).
Proof.
  destruct p as [|seg' p]; simpl.
  - now rewrite append_empty_r.
  - reflexivity.
Qed.

Lemma concat_bracketed_inj (p q : JSONPath) :
  Forall plain_segment p -> Forall plain_segment q ->
  String.concat EmptyString (map bracketed p) = String.concat EmptyString (map bracketed q) ->
  p = q.
Proof.
  intros Hp; revert q; induction Hp as [|x p Hx Hp IH]; intros q Hq H;
    destruct Hq as [|y q Hy Hq].
  - reflexivity.
  - rewrite concat_bracketed in H. discriminate H.
  - rewrite concat_bracketed in H. discriminate H.
  - rewrite !concat_bracketed in H.
    pose proof (read_bracketed_spec x (String.concat EmptyString (map bracketed p)) Hx) as Hr.
    rewrite H, (read_bracketed_spec y _ Hy) in Hr. injection Hr as -> Hr.
    f_equal. apply IH; [assumption | now symmetry].
Qed.

Lemma jsonPathToString_cons (seg : Segment) (p : JSONPath) :
  jsonPathToString (Some (seg :: p))
  = "$" ++ String.concat EmptyString (map bracketed (seg :: p)).
Proof.
  change (jsonPathToString (Some (seg :: p)))
    with ("$" ++ ("[" ++ join "][" (map segment_label (seg :: p)) ++ "]")).
  now rewrite join_brackets.
Qed.

(** X9.  Two paths whose keys hold no double quote have the same label only
    if they are the same path, and only the empty path is labelled [$].
    Keys are written between quotes as they are, so that without the
    condition two paths can share a label. *)
Theorem jsonPathToString_names_one_path :
  (forall p q,
     Forall plain_segment p -> Forall plain_segment q ->
     jsonPathToString (Some p) = jsonPathToString (Some q) -> p = q)
  /\ (forall p, jsonPathToString (Some p) = "$" -> p = [])
  /\ (exists p q, p <> q /\ jsonPathToString (Some p) = jsonPathToString (Some q)).
Proof.
  split; [|split].
  - intros p q Hp Hq H. destruct p as [|x p], q as [|y q].
    + reflexivity.
    + rewrite jsonPathToString_cons, concat_bracketed in H. discriminate H.
    + rewrite jsonPathToString_cons, concat_bracketed in H. discriminate H.
    + rewrite !jsonPathToString_cons in H. injection H as H.
      now apply concat_bracketed_inj.
  - intros [|x p] H; [reflexivity|].
    rewrite jsonPathToString_cons, concat_bracketed in H. discriminate H.
  - exists [SegKey ("a" ++ dq ++ "][" ++ dq ++ "b")], [SegKey "a"; SegKey "b"].
    split; [discriminate | reflexivity].
Qed.

(** ** The node of a fallback *)

Lemma parse_members_canonical (fuel : nat) :
  forall acc s v rest,
    canonical acc ->
    parse_members fuel acc s = Some (v, rest) ->
    exists props, v = JObj props /\ canonical props.
Proof.
  induction fuel as [|fuel IH]; intros acc s v rest Hc H; [discriminate|].
  simpl in H.
  destruct (skip_ws s) as [|q r]; [discriminate|].
  destruct (Ascii.eqb q dquote); [|discriminate].
  destruct (parse_string_body r) as [[k r1]|]; [|discriminate].
  destruct (skip_ws r1) as [|c r2]; [discriminate|].
  destruct (Ascii.eqb c ":"); [|discriminate].
  destruct (parse_value fuel r2) as [[x r3]|]; [|discriminate].
  destruct (skip_ws r3) as [|c3 r4]; [discriminate|].
  destruct (Ascii.eqb c3 ",").
  - apply IH in H; [assumption | now apply canonical_define_prop].
  - destruct (Ascii.eqb c3 "}"); [|discriminate]. injection H as <- _.
    eexists. split; [reflexivity | now apply canonical_define_prop].
Qed.

Lemma parse_value_canonical (fuel : nat) (s rest : string) (props : list (string * json)) :
  parse_value fuel s = Some (JObj props, rest) -> canonical props.
Proof.
  destruct fuel as [|fuel]; [discriminate|]. simpl.
  destruct (skip_ws s) as [|c r]; [discriminate|].
  destruct (Ascii.eqb c "{").
  { destruct (skip_ws r) as [|c1 r1]; [discriminate|].
    destruct (Ascii.eqb c1 "}").
    - intros [= <- _]. constructor.
    - intros H. apply parse_members_canonical in H; [|constructor].
      destruct H as (props' & [= <-] & Hc). exact Hc. }
  destruct (Ascii.eqb c "[").
  { destruct (skip_ws r) as [|c1 r1]; [discriminate|].
    destruct (Ascii.eqb c1 "]"); [discriminate|].
    intros H. apply parse_elements_array in H. destruct H as (items & [=]). }
  destruct (Ascii.eqb c dquote).
  { destruct (parse_string_body r) as [[x r1]|]; discriminate. }
  destruct (Ascii.eqb c "t").
  { intros H. apply expect_value in H. discriminate. }
  destruct (Ascii.eqb c "f").
  { intros H. apply expect_value in H. discriminate. }
  destruct (Ascii.eqb c "n").
  { intros H. apply expect_value in H. discriminate. }
  destruct (parse_number (String c r)) as [[n r1]|]; discriminate.
Qed.

(** The reference parser lists the keys of an object as an object does. *)
Lemma JSON_parse_canonical (editorText : string) (props : list (string * json)) :
  JSON_parse editorText = inl (JObj props) -> canonical props.
Proof.
  unfold JSON_parse.
  destruct (parse_value (2 * String.length editorText + 2) editorText)
    as [[v rest]|] eqn:E; [|discriminate].
  destruct (skip_ws rest); [|discriminate]. intros [= ->].
  now apply parse_value_canonical in E.
Qed.

Lemma keys_primitive_props (props : list (string * json)) (k : string) :
  In k (Object_keys (primitive_props props)) -> In k (Object_keys props).
Proof.
  induction props as [|[k' v] props IH]; simpl; [trivial|].
  unfold Object_keys in *. rewrite map_app, in_app_iff. intros [H|H].
  - left. destruct v as [p| |]; simpl in H;
      [destruct H as [H|[]]; exact H | destruct H | destruct H].
  - right. now apply IH.
Qed.

Lemma canonical_primitive_props (props : list (string * json)) :
  canonical props -> canonical (primitive_props props).
Proof.
  unfold canonical. induction props as [|[k v] props IH]; simpl; intros Hc.
  - constructor.
  - apply StronglySorted_inv in Hc. destruct Hc as [Hs Hf].
    destruct v as [p| |]; simpl; try now apply IH.
    constructor; [now apply IH|].
    rewrite Forall_forall in *. intros x Hx. apply Hf.
    now apply keys_primitive_props.
Qed.

Lemma collect_parsed_rows (props : list (string * json)) (obj : ObjectLiteral) :
  (forall k, In k (Object_keys props) -> k <> EmptyString /\ k <> "__proto__") ->
  fold_left collect_row (map (fun kv => make_row (Some (fst kv)) (snd kv)) props) obj
  = mkObj (proto_null obj)
          (fold_left (fun acc kv => define_prop (fst kv) (snd kv) acc)
                     (primitive_props props) (own obj)).
Proof.
  revert obj; induction props as [|[k v] props IH]; intros obj Hk.
  - now destruct obj.
  - assert (Hk0 : k <> EmptyString /\ k <> "__proto__") by (apply Hk; now left).
    destruct Hk0 as [Hne Hproto].
    assert (Hrest : forall k0, In k0 (Object_keys props) ->
                               k0 <> EmptyString /\ k0 <> "__proto__").
    { intros k0 H0. apply Hk. now right. }
    simpl map. simpl fold_left at 1. rewrite IH by assumption.
    destruct v as [p| |].
    + assert (collect_row obj (make_row (Some k) (JPrim p))
              = mkObj (proto_null obj) (define_prop k p (own obj))) as ->.
      { destruct k as [|c k]; [now elim Hne|].
        apply String.eqb_neq in Hproto.
        unfold collect_row, make_row, assign.
        destruct p; cbn [type key value jsonType RowType_eqb negb andb key_truthy];
          rewrite Hproto; reflexivity. }
      reflexivity.
    + reflexivity.
    + reflexivity.
Qed.

(** X10.  When the edited text is an object whose keys are neither empty
    nor [__proto__], the node of the fallback (of the inline editor, and of
    [EditableNodeModal] on a node that is not primitive) is seeded, when the
    editor opens on it, with the 2-space JSON of the primitive properties of
    that object, in their order: nested values are gone and nothing else
    changes. *)
Theorem fallback_node_shows_the_primitive_fields
    (editorText : string) (props : list (string * json)) (nd : NodeData) :
  JSON_parse editorText = inl (JObj props) ->
  (forall k, In k (Object_keys props) -> k <> EmptyString /\ k <> "__proto__") ->
  getEditableString (Some (mkNode (path nd) (parsed_rows (JObj props))))
  = JSON_stringify_2 (JObj (map (fun kv => (fst kv, JPrim (snd kv)))
                                (primitive_props props)))
  /\ (isPrimitiveNode nd = false -> fallback_rows nd (JObj props) = parsed_rows (JObj props)).
Proof.
  intros Hparse Hk. split.
  - apply JSON_parse_canonical in Hparse.
    rewrite parsed_rows_object.
    assert (Hnone : single_keyless (map (fun kv => make_row (Some (fst kv)) (snd kv)) props)
                    = None).
    { destruct props as [|[k v] [|kv' props]]; try reflexivity.
      destruct (Hk k (or_introl eq_refl)) as [Hne _].
      destruct k; [now elim Hne | reflexivity]. }
    unfold getEditableString. simpl text. rewrite Hnone.
    unfold json_of_object, collect_rows. rewrite collect_parsed_rows by assumption.
    simpl own. rewrite define_props_in_order; [reflexivity|].
    now apply canonical_primitive_props.
  - intros Hleaf. unfold fallback_rows. rewrite Hleaf. reflexivity.
Qed.

Lemma indexed_key_not_empty {A : Type} (i : nat) (l : list A) (k : string) (x : A) :
  In (k, x) (indexed i l) -> k <> EmptyString.
Proof.
  revert i; induction l as [|a l IH]; intros i; simpl; [intros []|].
  intros [[= <- _]|H]; [|now apply (IH (S i))].
  destruct (Number_toString_first (Z.of_nat i)) as (c & r & -> & _). discriminate.
Qed.

Lemma keyed_rows_primitive (entries : list (string * json)) (p : JSONPath) :
  isPrimitiveNode (mkNode p (map (fun kv => make_row (Some (fst kv)) (snd kv)) entries))
  = true
  <-> exists x, entries = [(EmptyString, x)].
Proof.
  unfold isPrimitiveNode. simpl text.
  destruct entries as [|[k x] [|kv' entries]]; simpl.
  - split; [discriminate | intros (x & [=])].
  - destruct k as [|c k]; simpl.
    + split; [intros _; now exists x | reflexivity].
    + split; [discriminate | intros (x' & [=])].
  - split; [discriminate | intros (x' & [=])].
Qed.

Section FallbackKind.

Variable Edits : Type.
Variable modify : string -> JSONPath -> option json -> option Edits.
Variable applyEdits : string -> Edits -> option string.

Local Abbreviation patch := (patch Edits modify applyEdits).
Local Abbreviation patch_at := (patch_at Edits modify applyEdits).

(** X11.  The fallback of [EditableNodeModal] keeps the kind of the node: a
    primitive node stays primitive, and a node that is not primitive stays
    so unless the edited text is an object whose only key is the empty
    string.  The fallback of the inline editor follows the edited text
    instead: the node becomes primitive exactly when the text is no plain
    object (or an object whose only key is empty); the next save of such a
    node replaces the whole value at its path. *)
Theorem kind_of_the_fallback_node (nd : NodeData) (parsed : json) :
  (isPrimitiveNode nd = true ->
   isPrimitiveNode (mkNode (path nd) (fallback_rows nd parsed)) = true)
  /\ (isPrimitiveNode nd = false ->
      (isPrimitiveNode (mkNode (path nd) (fallback_rows nd parsed)) = true
       <-> exists x, parsed = JObj [(EmptyString, x)]))
  /\ (isPrimitiveNode (mkNode (path nd) (parsed_rows parsed)) = true
      <-> (forall props, parsed <> JObj props)
          \/ exists x, parsed = JObj [(EmptyString, x)])
  /\ (forall parsed' doc,
        isPrimitiveNode (mkNode (path nd) (parsed_rows parsed)) = true ->
        patch (mkNode (path nd) (parsed_rows parsed))
              (isPrimitiveNode (mkNode (path nd) (parsed_rows parsed))) parsed' doc
        = patch_at doc (path nd) (Some parsed')).
Proof.
  split; [|split; [|split]].
  - intros H. unfold fallback_rows. rewrite H. reflexivity.
  - intros H. unfold fallback_rows. rewrite H. rewrite keyed_rows_primitive.
    destruct parsed as [p|items|props].
    + split; [|intros (x & [=])]. intros (x & E). exfalso.
      assert (Hin : In (EmptyString, x)
                       (own_entries (if truthy (JPrim p) then JPrim p else JObj []))).
      { rewrite E. now left. }
      destruct p as [|b|n|s]; simpl in Hin;
        repeat match goal with
               | H : In _ (own_entries (if ?c then _ else _)) |- _ =>
                   destruct c; simpl in H
               end;
        try (now destruct Hin).
      now apply indexed_key_not_empty in Hin.
    + split; [|intros (x & [=])]. intros (x & E). exfalso.
      assert (Hin : In (EmptyString, x) (indexed 0 items)).
      { simpl in E. rewrite E. now left. }
      now apply indexed_key_not_empty in Hin.
    + simpl. split; intros (x & E); exists x; congruence.
  - destruct parsed as [p|items|props].
    + split; [intros _; left; discriminate|]. intros _. now destruct p.
    + split; [intros _; left; discriminate | reflexivity].
    + rewrite parsed_rows_object, keyed_rows_primitive. split.
      * intros (x & ->). right. now exists x.
      * intros [H|(x & [= ->])]; [now elim (H props) | now exists x].
  - intros parsed' doc H. rewrite H. reflexivity.
Qed.

End FallbackKind.

(** ** The document changes only by a commit *)

Section Commit.

Variable JSON_parse : string -> json + string.
Variable Edits : Type.
Variable modify : string -> JSONPath -> option json -> option Edits.
Variable applyEdits : string -> Edits -> option string.
Variable parser : string -> list NodeData.

Local Abbreviation save := (handleSave JSON_parse Edits modify applyEdits parser).
Local Abbreviation saveInline := (handleSaveInline JSON_parse Edits modify applyEdits parser).
Local Abbreviation patch := (patch Edits modify applyEdits).


End Commit.

(** * Examples *)

Import Examples.

(** The scenario of the specification: the age of the user goes from 30 to
    31, the document follows and the node at user is selected again. *)
Example save_scenario :
  let st' := Reference.save (Some user_node) edited state0 in
  store_json st' = json_text "{'user':{'name':'Ann','age':31}}"
  /\ selectedNode st' = Some edited_node
  /\ opened st' = false /\ error st' = None.
Proof. vm_compute. repeat split. Qed.



(** With the path of age made unresolvable, the edit of name goes through,
    the edit of age fails, and the document is the one before the save. *)
Lemma failed_field_set_save_keeps_document_witness :
  store_json
    (handleSave JSON_parse (list Reference.Edit)
       (Reference.modify_unless [SegKey "user"; SegKey "age"])
       Reference.applyEdits Reference.parser (Some user_node) edited state0)
  = document.
Proof.
  refine (proj1 (failed_field_set_save_keeps_document
                   JSON_parse (list Reference.Edit)
                   (Reference.modify_unless [SegKey "user"; SegKey "age"])
                   Reference.applyEdits Reference.parser
                   user_node edited edited_value state0
                   ["name"] "age" [] document _ _ _ _ _));
    vm_compute; reflexivity.
Defined.

(** C3.  The root of the document with the members of empty key at 1 and
    of key a at 2 has two rows with a key and a type that is neither object
    nor array; it is no leaf.  Saving the empty object on it should delete
    both keys.  The editor edits the key a alone, and the member of empty
    key stays in the document.  On the root of the document whose only
    member has the empty key, a node of one row that has a key, saving the
    text 2 should delete the key; the editor takes the node for a primitive
    and replaces the whole document by 2. *)
Lemma empty_key_row_is_not_edited :
  Reference.parser empty_key_document = [empty_key_node]
  /\ (forall r, In r (text empty_key_node) ->
        exists k, key r = Some k /\ is_container (type r) = false)
  /\ union_keys (text empty_key_node) (newObj (JObj [])) = ["a"]
  /\ field_edits (path empty_key_node) (own_entries (newObj (JObj [])))
                 (union_keys (text empty_key_node) (newObj (JObj [])))
     = [([SegKey "a"], None)]
  /\ store_json (Reference.save (Some empty_key_node) "{}" empty_key_state)
     = single_empty_key_document
  /\ store_json (Reference.saveInline (Some empty_key_node) "{}" empty_key_state)
     = single_empty_key_document
  /\ Reference.parser single_empty_key_document = [single_empty_key_node]
  /\ isPrimitiveNode single_empty_key_node = true
  /\ store_json (Reference.save (Some single_empty_key_node) "2" single_empty_key_state)
     = "2"
  /\ store_json (Reference.saveInline (Some single_empty_key_node) "2"
                   single_empty_key_state)
     = "2".
Proof.
  split; [vm_compute; reflexivity|]. split.
  { intros r [<-|[<-|[]]]; eexists; split; reflexivity. }
  vm_compute. repeat split.
Qed.

(** The text of the example is no JSON: the error is set, the editor stays
    open and the document is untouched. *)
Lemma invalid_json_is_the_only_open_outcome_witness :
  let st' := Reference.save (Some user_node) invalid state0 in
  error st' = Some syntax_error /\ opened st' = opened state0
  /\ store_json st' = store_json state0 /\ contents st' = contents state0
  /\ nodes st' = nodes state0 /\ selectedNode st' = selectedNode state0.
Proof.
  refine (proj1 (invalid_json_is_the_only_open_outcome
                   JSON_parse (list Reference.Edit) Reference.modify
                   Reference.applyEdits Reference.parser
                   (Some user_node) invalid state0) syntax_error _).
  vm_compute; reflexivity.
Defined.

(** C5.  On a document that has lost the object of the node at user, a
    save falls back in both editors, on the same document and with the same
    error and open state.  For the text 5 [EditableNodeModal] leaves the node
    without rows and the inline editor gives it the keyless row of 5; for
    the text of the string ab [EditableNodeModal] gives the node one row per
    character and the inline editor the keyless row of the string. *)
Lemma editors_differ_on_fallback :
  selectedNode (Reference.save (Some user_node) "5" drifted)
  = Some (mkNode [SegKey "user"] [])
  /\ selectedNode (Reference.saveInline (Some user_node) "5" drifted)
     = Some (mkNode [SegKey "user"] [mkRow None (PNum 5) TNumber])
  /\ selectedNode (Reference.save (Some user_node) "5" drifted)
     <> selectedNode (Reference.saveInline (Some user_node) "5" drifted)
  /\ store_json (Reference.save (Some user_node) "5" drifted)
     = store_json (Reference.saveInline (Some user_node) "5" drifted)
  /\ selectedNode (Reference.save (Some user_node) (json_text "'ab'") drifted)
     = Some (mkNode [SegKey "user"]
               [mkRow (Some "0") (PStr "a") TString; mkRow (Some "1") (PStr "b") TString])
  /\ selectedNode (Reference.saveInline (Some user_node) (json_text "'ab'") drifted)
     = Some (mkNode [SegKey "user"] [mkRow None (PStr "ab") TString]).
Proof. vm_compute. repeat split. discriminate. Qed.

(** C6.  The root of the document whose only member has the empty key at
    1 is a node of one row, which has a key: it is no single primitive
    value, and its text is the object of that member.  The projector prints
    the bare value 1, as for the leaf of 1, and so does the preview.  With
    a second row of key a, the row of empty key is left out of the object
    that is printed. *)
Lemma empty_key_row_is_printed_bare :
  Reference.parser single_empty_key_document = [single_empty_key_node]
  /\ text single_empty_key_node = [empty_key_row]
  /\ key empty_key_row = Some EmptyString
  /\ getEditableString (Some single_empty_key_node) = "1"
  /\ getEditableString (Some single_empty_key_node)
     = getEditableString (Some (leaf [] (PNum 1)))
  /\ normalizeNodeData (text single_empty_key_node) = "1"
  /\ project_spec (Some single_empty_key_node)
     = "{" ++ newline ++ "  " ++ dq ++ dq ++ ": 1" ++ newline ++ "}"
  /\ getEditableString (Some single_empty_key_node)
     <> project_spec (Some single_empty_key_node)
  /\ getEditableString (Some empty_key_node)
     = "{" ++ newline ++ "  " ++ dq ++ "a" ++ dq ++ ": 2" ++ newline ++ "}"
  /\ project_spec (Some empty_key_node)
     = "{" ++ newline ++ "  " ++ dq ++ dq ++ ": 1," ++ newline
           ++ "  " ++ dq ++ "a" ++ dq ++ ": 2" ++ newline ++ "}".
Proof. vm_compute. repeat split. discriminate. Qed.

(** The rows of the edited text of the scenario. *)
Lemma parse_rows_inference_witness :
  parse_rows JSON_parse edited
  = inl [mkRow (Some "name") (PStr "Ann") TString; mkRow (Some "age") (PNum 31) TNumber].
Proof.
  destruct (parse_rows_inference JSON_parse edited edited_value) as (rows & H & _).
  - vm_compute; reflexivity.
  - rewrite H. vm_compute in H. injection H as <-. reflexivity.
Defined.

(** On the scenario the rebuilt list has the node at user, which is
    selected. *)
Lemma reselection_after_commit_witness :
  exists before found after,
    Reference.parser (json_text "{'user':{'name':'Ann','age':31}}")
    = (before ++ found :: after)%list
    /\ path found = path user_node
    /\ (forall m, In m before -> path m <> path user_node)
    /\ selectedNode (Reference.save (Some user_node) edited state0) = Some found.
Proof.
  refine (proj1 (proj2 (reselection_after_commit
                          JSON_parse (list Reference.Edit) Reference.modify
                          Reference.applyEdits Reference.parser
                          user_node edited edited_value state0
                          (json_text "{'user':{'name':'Ann','age':31}}") _ _)) _).
  - vm_compute; reflexivity.
  - vm_compute; reflexivity.
  - exists edited_node. split; [|reflexivity]. vm_compute. right. now left.
Defined.

(** Without a node, saving the text 5 only closes the editor. *)
Lemma absent_node_save_is_a_no_op_witness :
  Reference.save None "5" state0 = onClose state0
  /\ Reference.saveInline None "5" state0 = onClose state0.
Proof.
  destruct (proj1 (absent_node_save_is_a_no_op
                     JSON_parse (list Reference.Edit) Reference.modify
                     Reference.applyEdits Reference.parser "5" state0)
              (JPrim (PNum 5))) as (Ha & Hb & _).
  - vm_compute; reflexivity.
  - split; [exact Ha | exact Hb].
Defined.

(** ** Examples of the further properties *)



(** The string leaf of the text 30 is read back as the number 30. *)
Lemma string_leaf_is_retyped_witness :
  JSON_parse (getEditableString (Some (leaf [SegKey "age"] (PStr "30"))))
  = inl (JPrim (PNum 30)).
Proof.
  refine (proj1 (proj2 (string_leaf_is_retyped
                          (list Reference.Edit) Reference.modify Reference.applyEdits
                          [SegKey "age"] (PNum 30) document _ _))).
  - intros s. discriminate.
  - intros n [= <-]. unfold safe_integer. lia.
Defined.

(** On the scenario the inline editor writes the new document to the
    mirror. *)
Lemma mirror_of_the_document_witness :
  contents (Reference.saveInline (Some user_node) edited state0)
  = json_text "{'user':{'name':'Ann','age':31}}".
Proof.
  refine (proj2 (proj2 (proj2 (proj2
            (mirror_of_the_document
               JSON_parse (list Reference.Edit) Reference.modify
               Reference.applyEdits Reference.parser
               (Some user_node) edited state0))
            user_node edited_value (json_text "{'user':{'name':'Ann','age':31}}")
            _ _ _)));
    vm_compute; reflexivity.
Defined.

(** Saving the object with name alone on the node at user deletes age. *)
Lemma field_set_save_sets_and_deletes_witness :
  In ([SegKey "user"; SegKey "age"], None)
     (field_edits [SegKey "user"] [("name", JPrim (PStr "Ann"))] ["name"; "age"]).
Proof.
  refine (proj2 (proj1 (proj2 (field_set_save_sets_and_deletes
                                 (list Reference.Edit) Reference.modify
                                 Reference.applyEdits user_node
                                 (JObj [("name", JPrim (PStr "Ann"))]) _)) "age") _).
  - reflexivity.
  - split.
    + exists (mkRow (Some "age") (PNum 30) TNumber). split.
      * right. now left.
      * repeat split. discriminate.
    + simpl. intros [H|[]]. discriminate H.
Defined.


(** The label of the path customer, 0 names that path. *)
Lemma jsonPathToString_names_one_path_witness :
  [SegKey "customer"; SegIdx 0] = [SegKey "customer"; SegIdx 0].
Proof.
  refine (proj1 jsonPathToString_names_one_path
            [SegKey "customer"; SegIdx 0] [SegKey "customer"; SegIdx 0] _ _ _).
  - repeat constructor.
  - repeat constructor.
  - reflexivity.
Defined.

(** After a fallback on an object with a nested array, the editor shows the
    two primitive fields. *)
Lemma fallback_node_shows_the_primitive_fields_witness :
  getEditableString
    (Some (mkNode (path user_node)
             (parsed_rows (JObj [("name", JPrim (PStr "Ann"));
                                 ("tags", JArr [JPrim (PNum 1); JPrim (PNum 2)]);
                                 ("age", JPrim (PNum 31))]))))
  = JSON_stringify_2 (JObj [("name", JPrim (PStr "Ann")); ("age", JPrim (PNum 31))]).
Proof.
  refine (proj1 (fallback_node_shows_the_primitive_fields
                   (json_text "{'name':'Ann','tags':[1,2],'age':31}")
                   [("name", JPrim (PStr "Ann"));
                    ("tags", JArr [JPrim (PNum 1); JPrim (PNum 2)]);
                    ("age", JPrim (PNum 31))]
                   user_node _ _)).
  - vm_compute; reflexivity.
  - intros k [<-|[<-|[<-|[]]]]; split; discriminate.
Defined.

(** The fallback of [EditableNodeModal] on a leaf gives a primitive node. *)
Lemma kind_of_the_fallback_node_witness :
  isPrimitiveNode
    (mkNode (path (leaf [SegKey "age"] (PNum 30)))
            (fallback_rows (leaf [SegKey "age"] (PNum 30)) edited_value))
  = true.
Proof.
  refine (proj1 (kind_of_the_fallback_node
                   (list Reference.Edit) Reference.modify Reference.applyEdits
                   (leaf [SegKey "age"] (PNum 30)) edited_value) _).
  reflexivity.
Defined.

(** On the scenario, which is committed, the two editors select the same
    node. *)
Lemma editors_agree_up_to_fallback_rows_witness :
  selectedNode (Reference.save (Some user_node) edited state0)
  = selectedNode (Reference.saveInline (Some user_node) edited state0).
Proof.
  refine (proj1 (proj2 (proj2 (proj2 (proj2 (proj2 (proj2
            (editors_agree_up_to_fallback_rows
               JSON_parse (list Reference.Edit) Reference.modify
               Reference.applyEdits Reference.parser
               (Some user_node) edited state0)))))))
          user_node edited_value (json_text "{'user':{'name':'Ann','age':31}}") _ _ _);
    vm_compute; reflexivity.
Defined.
